(** * PageRank (pagerank/pagerank.py): a shallow embedding and its properties

    The Python program keeps its corpus in a [dict] from page names to
    [set]s of page names, and its probability and rank tables in [dict]s
    from page names to floats.  Python dictionaries iterate in insertion
    order, and [iterate_pagerank] updates its table while it walks over
    it, so dictionaries are modelled as association lists in iteration
    order, and a [set] as a list without duplicates.  Exceptions are
    values of an error monad, the random module is an interface over an
    explicit generator state, and the [while True] loop of
    [iterate_pagerank] takes a bound on its number of passes.

    Numbers are read in two ways.  The first embedding reads them as
    exact rationals ([Q]): it says what the arithmetic written in the
    program computes, without rounding.  The section on the program
    over any arithmetic gives the numeric functions once more with the
    arithmetic as a parameter; at binary64 (Rocq's primitive floats)
    they compute what Python computes, bit for bit, and that reading
    settles the statements on which rounding bears. *)

From Stdlib Require Import List String Bool Arith ZArith QArith Qabs Qround.
From Stdlib Require Import Lia Lqa Field Permutation Morphisms Setoid Sorted.
From Stdlib Require Import PrimFloat.
From Stdlib Require Uint63.
Import ListNotations.

Open Scope Q_scope.

(** ** Python exceptions and the error monad

    The exceptions the program can meet: the first three come from its
    own lookups, draws and divisions, [ValueError] from
    [random.choices] and from text that does not decode, [OSError] from
    [os.listdir] and [open]. *)

Inductive exn : Type :=
| KeyError (key : string)
| IndexError
| ZeroDivisionError
| ValueError
| OSError.

(** The class name Python reports for an exception. *)
Definition exn_name (e : exn) : string :=
  match e with
  | KeyError _ => "KeyError"
  | IndexError => "IndexError"
  | ZeroDivisionError => "ZeroDivisionError"
  | ValueError => "ValueError"
  | OSError => "OSError"
  end%string.

Inductive result (A : Type) : Type :=
| Ok (a : A)
| Raise (e : exn).
Arguments Ok {A} a.
Arguments Raise {A} e.

Definition bind {A B} (m : result A) (k : A -> result B) : result B :=
  match m with
  | Ok a => k a
  | Raise e => Raise e
  end.

Notation "x <- m ;; k" := (bind m (fun x => k))
  (at level 61, m at next level, right associativity).
Notation "' pat <- m ;; k" := (bind m (fun x => match x with pat => k end))
  (at level 61, pat pattern, m at next level, right associativity).

(** A [for] loop whose body may raise. *)
Fixpoint for_each {A S} (body : S -> A -> result S) (xs : list A) (s : S)
  : result S :=
  match xs with
  | [] => Ok s
  | x :: xs' => s' <- body s x ;; for_each body xs' s'
  end.

(** ** Dictionaries in iteration order *)

Definition dict (V : Type) : Type := list (string * V).

Definition keys {V} (d : dict V) : list string := map fst d.
Definition values {V} (d : dict V) : list V := map snd d.

Fixpoint dict_get {V} (d : dict V) (k : string) : option V :=
  match d with
  | [] => None
  | (k', v) :: d' => if String.eqb k k' then Some v else dict_get d' k
  end.

(** [d[k]]: raises [KeyError] on a missing key. *)
Definition getitem {V} (d : dict V) (k : string) : result V :=
  match dict_get d k with
  | Some v => Ok v
  | None => Raise (KeyError k)
  end.

(** [d[k] = v]: an existing key keeps its place, a new one goes last. *)
Fixpoint dict_set {V} (d : dict V) (k : string) (v : V) : dict V :=
  match d with
  | [] => [(k, v)]
  | (k', v') :: d' =>
      if String.eqb k k' then (k', v) :: d' else (k', v') :: dict_set d' k v
  end.

(** [k in s] for a set kept as a duplicate-free list. *)
Fixpoint mem (k : string) (s : list string) : bool :=
  match s with
  | [] => false
  | k' :: s' => String.eqb k k' || mem k s'
  end.

(** [len(...)] as a number. *)
Definition len {A} (l : list A) : Q := inject_Z (Z.of_nat (List.length l)).

Fixpoint Qsum (l : list Q) : Q :=
  match l with
  | [] => 0
  | x :: l' => x + Qsum l'
  end.

(** ** The corpus *)

(** [crawl] returns a dict from page name to the set of pages it links
    to.  A set is a list without duplicates. *)
Definition Corpus : Type := dict (list string).

Fixpoint nodupb (l : list string) : bool :=
  match l with
  | [] => true
  | x :: l' => negb (mem x l') && nodupb l'
  end.

(** The list really is a Python dict of sets: keys and set elements are
    unique. *)
Definition wf_corpus (c : Corpus) : bool :=
  nodupb (keys c) && forallb nodupb (values c).

(** What [crawl] guarantees (the spec's graph invariant): links stay
    inside the corpus and no page links to itself. *)
Definition links_closed (c : Corpus) : bool :=
  forallb (fun ls => forallb (fun l => mem l (keys c)) ls) (values c).

Definition no_self_loops (c : Corpus) : bool :=
  forallb (fun e => negb (mem (fst e) (snd e))) c.

(** ** transition_model *)

Definition transition_model (corpus : Corpus) (page : string)
  (damping_factor : Q) : result (dict Q) :=
  (* page_links = corpus[page] *)
  page_links <- getitem corpus page ;;
  (* for pages in corpus: all_pages.append(pages); probabilities[pages] = 0 *)
  let '(all_pages, probabilities) :=
    fold_left (fun st pages => (fst st ++ [pages], dict_set (snd st) pages 0))
      (keys corpus) ([], []) in
  (* for page in page_links:
       probabilities[page] = damping_factor * (1/len(page_links)) *)
  let probabilities :=
    fold_left (fun pr page =>
                 dict_set pr page (damping_factor * (1 / len page_links)))
      page_links probabilities in
  (* for page in all_pages:
       probabilities[page] += (1-damping_factor) * (1/len(all_pages)) *)
  for_each (fun pr page =>
              old <- getitem pr page ;;
              Ok (dict_set pr page
                    (old + (1 - damping_factor) * (1 / len all_pages))))
    all_pages probabilities.

(** ** The random module

    [random.choice] and [random.choices] belong to Python's standard
    library, not to the repository, so the sampler takes them as an
    interface over an explicit generator state. *)

Record Random : Type := {
  rng : Type;
  choice : list string -> rng -> result (string * rng);
  choices : list string -> list Q -> rng -> result (string * rng)
}.

(** What the sampler relies on: a draw from a non-empty population
    returns one of its members; [choices] wants one weight per member and
    a positive total weight. *)
Record RandomSpec (R : Random) : Prop := {
  choice_in : forall pop g, pop <> [] ->
    exists x g', choice R pop g = Ok (x, g') /\ In x pop;
  choices_in : forall pop w g,
    pop <> [] -> List.length w = List.length pop -> 0 < Qsum w ->
    exists x g', choices R pop w g = Ok (x, g') /\ In x pop
}.

(** ** sample_pagerank *)

Section Sampling.
Variable R : Random.

(** The body of [for i in range(0, n-1)], run [i] more times. *)
Fixpoint sample_loop (corpus : Corpus) (damping_factor : Q) (n : nat)
  (i : nat) (createdPages current_probabilities : dict Q) (g : rng R)
  : result (dict Q) :=
  match i with
  | O => Ok createdPages
  | S i' =>
      (* new_page = random.choices(list(current_probabilities.keys()),
                                   list(current_probabilities.values()), k=1);
         the model names the one page drawn, [new_page[0]] *)
      '(new_page, g) <-
        choices R (keys current_probabilities)
          (values current_probabilities) g ;;
      (* createdPages[new_page[0]] += 1/n *)
      old <- getitem createdPages new_page ;;
      let createdPages :=
        dict_set createdPages new_page (old + 1 / inject_Z (Z.of_nat n)) in
      current_probabilities <-
        transition_model corpus new_page damping_factor ;;
      sample_loop corpus damping_factor n i' createdPages
        current_probabilities g
  end.

Definition sample_pagerank (corpus : Corpus) (damping_factor : Q)
  (n : nat) (g : rng R) : result (dict Q) :=
  let pages := keys corpus in
  (* for page in pages: createdPages[page] = 0 *)
  let createdPages := fold_left (fun cp page => dict_set cp page 0) pages [] in
  (* first_page = random.choice(pages) *)
  '(first_page, g) <- choice R pages g ;;
  (* createdPages[first_page] = 1/n *)
  inv_n <- (if Nat.eqb n 0 then Raise ZeroDivisionError
            else Ok (1 / inject_Z (Z.of_nat n))) ;;
  let createdPages := dict_set createdPages first_page inv_n in
  current_probabilities <-
    transition_model corpus first_page damping_factor ;;
  sample_loop corpus damping_factor n (n - 1) createdPages
    current_probabilities g.
End Sampling.

(** ** iterate_pagerank *)

(** [threshold = 0.0005], a local constant of the function. *)
Definition threshold : Q := 5 # 10000.

(** [a < b] on numbers. *)
Definition Qltb (a b : Q) : bool := negb (Qle_bool b a).

(** The inner loop [for page in corpus]: it builds [sigma] for [key]
    from the table [ranks] as it stands. *)
Definition incoming (corpus : Corpus) (ranks : dict Q) (key : string)
  : result Q :=
  for_each (fun sigma page =>
              links <- getitem corpus page ;;
              if mem key links then
                r <- getitem ranks page ;;
                Ok (sigma + r / len links)
              else Ok sigma)
    (keys corpus) 0.

(** The body of [for key in corpus]: the state is the table and [count]. *)
Definition update_rank (corpus : Corpus) (damping_factor : Q)
  (st : dict Q * nat) (key : string) : result (dict Q * nat) :=
  let '(ranks, count) := st in
  (* new = (1 - damping_factor) / N *)
  let new := (1 - damping_factor) / len corpus in
  sigma <- incoming corpus ranks key ;;
  (* sigma = damping_factor * sigma; new += sigma *)
  let sigma := damping_factor * sigma in
  let new := new + sigma in
  (* if abs(ranks[key] - new) < threshold: count += 1 *)
  old <- getitem ranks key ;;
  let count := if Qltb (Qabs (old - new)) threshold then S count else count in
  (* ranks[key] = new *)
  Ok (dict_set ranks key new, count).

(** One pass of the [while True] body. *)
Definition round (corpus : Corpus) (damping_factor : Q) (ranks : dict Q)
  : result (dict Q * nat) :=
  for_each (update_rank corpus damping_factor) (keys corpus) (ranks, O).

(** The [while True] loop with at most [fuel] passes; [None] when the
    passes run out before [count == N]. *)
Fixpoint iterate_loop (fuel : nat) (corpus : Corpus) (damping_factor : Q)
  (ranks : dict Q) : option (result (dict Q)) :=
  match fuel with
  | O => None
  | S fuel' =>
      match round corpus damping_factor ranks with
      | Raise e => Some (Raise e)
      | Ok (ranks', count) =>
          if Nat.eqb count (List.length corpus) then Some (Ok ranks')
          else iterate_loop fuel' corpus damping_factor ranks'
      end
  end.

(** The two initialising loops, [ranks[key] = 1 / N] for every key,
    twice. *)
Definition initial_ranks (corpus : Corpus) : dict Q :=
  let init := fun ranks key => dict_set ranks key (1 / len corpus) in
  fold_left init (keys corpus) (fold_left init (keys corpus) []).

Definition iterate_pagerank (fuel : nat) (corpus : Corpus)
  (damping_factor : Q) : option (result (dict Q)) :=
  iterate_loop fuel corpus damping_factor (initial_ranks corpus).

(** ** crawl *)

(** [s.endswith(suffix)]. *)
Fixpoint endswith (s suffix : string) : bool :=
  String.eqb s suffix
  || match s with
     | EmptyString => false
     | String _ s' => endswith s' suffix
     end.

(** [set(links)]: the distinct elements, in some order. *)
Definition set_of (links : list string) : list string :=
  nodup string_dec links.

(** [crawl] reads a directory; the model is given its listing, one
    entry per file with the text [f.read()] returns.  [re.findall] with
    the pattern for [href] attributes belongs to Python's standard
    library and is taken as the function [findall].  Here every file is
    taken as read; [Generic.crawl] below has the reads that raise. *)
Section Crawl.
Variable findall : string -> list string.

Definition crawl (directory : list (string * string)) : result Corpus :=
  (* for filename in os.listdir(directory):
       if not filename.endswith(".html"): continue
       links = re.findall(..., contents)
       pages[filename] = set(links) - {filename} *)
  let pages :=
    fold_left (fun pages file =>
                 if negb (endswith (fst file) ".html") then pages
                 else
                   let links := findall (snd file) in
                   dict_set pages (fst file)
                     (filter (fun link => negb (String.eqb link (fst file)))
                        (set_of links)))
      directory [] in
  (* for filename in pages:
       pages[filename] = set(link for link in pages[filename]
                             if link in pages) *)
  for_each (fun pages filename =>
              links <- getitem pages filename ;;
              Ok (dict_set pages filename
                    (filter (fun link => mem link (keys pages)) links)))
    (keys pages) pages.
End Crawl.

(** ** main *)

Definition DAMPING : Q := 85 # 100.
Definition SAMPLES : nat := Z.to_nat 10000.

(** [sorted(...)] on page names: the names in increasing order. *)
Fixpoint insert_sorted (x : string) (l : list string) : list string :=
  match l with
  | [] => [x]
  | y :: l' => if String.leb x y then x :: l else y :: insert_sorted x l'
  end.

Definition sorted (l : list string) : list string :=
  fold_right insert_sorted [] l.

(** What [main] prints, line by line.  A rank line stands for
    [f"  {page}: {ranks[page]:.4f}"]; it keeps the rank itself, the
    rounding to four decimals is not modelled. *)
Inductive line : Type :=
| SamplingTitle (n : nat)
| IterationTitle
| RankLine (page : string) (rank : Q).

(** How a run of [main] ends. *)
Inductive ending : Type :=
| Finished
| SystemExit (message : string)
| Uncaught (e : exn).

(** [for page in pages: print(f"  {page}: {ranks[page]:.4f}")], after
    the lines [out]. *)
Fixpoint print_ranks (ranks : dict Q) (pages : list string) (out : list line)
  : list line * option exn :=
  match pages with
  | [] => (out, None)
  | page :: pages' =>
      match dict_get ranks page with
      | Some rank => print_ranks ranks pages' (out ++ [RankLine page rank])
      | None => (out, Some (KeyError page))
      end
  end.

(** [main] with its surroundings made explicit: the command line, the
    files of each directory (taken to exist and to be readable), the
    link pattern, the random generator, and a bound on the passes of
    the loop of [iterate_pagerank] ([None] when it is too small). *)
Section Main.
Variable findall : string -> list string.
Variable listdir : string -> list (string * string).
Variable R : Random.

Definition main (argv : list string) (g : rng R) (fuel : nat)
  : option (list line * ending) :=
  (* if len(sys.argv) != 2: sys.exit("Usage: python pagerank.py corpus") *)
  if negb (Nat.eqb (List.length argv) 2) then
    Some ([], SystemExit "Usage: python pagerank.py corpus")
  else
    (* corpus = crawl(sys.argv[1]) *)
    match crawl findall (listdir (nth 1 argv ""%string)) with
    | Raise e => Some ([], Uncaught e)
    | Ok corpus =>
        (* ranks = sample_pagerank(corpus, DAMPING, SAMPLES) *)
        match sample_pagerank R corpus DAMPING SAMPLES g with
        | Raise e => Some ([], Uncaught e)
        | Ok ranks =>
            match print_ranks ranks (sorted (keys ranks))
                    [SamplingTitle SAMPLES] with
            | (out, Some e) => Some (out, Uncaught e)
            | (out, None) =>
                (* ranks = iterate_pagerank(corpus, DAMPING) *)
                match iterate_pagerank fuel corpus DAMPING with
                | None => None
                | Some (Raise e) => Some (out, Uncaught e)
                | Some (Ok ranks) =>
                    match print_ranks ranks (sorted (keys ranks))
                            (out ++ [IterationTitle]) with
                    | (out, Some e) => Some (out, Uncaught e)
                    | (out, None) => Some (out, Finished)
                    end
                end
            end
        end
    end.
End Main.

(** ** The program over any arithmetic, with reads that can fail

    The definitions above read the program's numbers as exact
    rationals, and take every file of the directory as read.  The
    program itself computes in binary64, and [os.listdir], [open] and
    [f.read] can raise.  Here the program is written once more, word
    for word, over an arithmetic that is a parameter and over a
    directory whose reads may fail: at the rationals the numeric
    functions are the definitions above, at binary64 they are the
    program as Python runs it. *)

Record arith : Type := {
  num : Type;
  zero : num;                       (* the literal 0 *)
  one : num;                        (* the literal 1 *)
  add : num -> num -> num;
  sub : num -> num -> num;
  mul : num -> num -> num;
  div : num -> num -> num;
  absolute : num -> num;            (* abs(...) *)
  less : num -> num -> bool;        (* ... < ... *)
  of_len : nat -> num;              (* len(...), n and N as numbers *)
  threshold_value : num;            (* the literal 0.0005 *)
  damping_value : num               (* the literal 0.85 *)
}.

(** Exact rational arithmetic. *)
Definition exact : arith := {|
  num := Q;
  zero := 0;
  one := 1;
  add := Qplus;
  sub := Qminus;
  mul := Qmult;
  div := Qdiv;
  absolute := Qabs;
  less := Qltb;
  of_len := fun n => inject_Z (Z.of_nat n);
  threshold_value := threshold;
  damping_value := DAMPING
|}.

(** IEEE 754 binary64 with rounding to nearest, ties to even: Python's
    [float].  An [int] that meets a [float] is converted first;
    [int / int] is the correctly rounded quotient, which for integers
    below 2^53 is the quotient of the two converted values.  The
    threshold and the damping factor are the doubles nearest to 0.0005
    and to 0.85. *)
Definition binary64 : arith := {|
  num := float;
  zero := PrimFloat.of_uint63 (Uint63.of_Z 0);
  one := PrimFloat.of_uint63 (Uint63.of_Z 1);
  add := PrimFloat.add;
  sub := PrimFloat.sub;
  mul := PrimFloat.mul;
  div := PrimFloat.div;
  absolute := PrimFloat.abs;
  less := PrimFloat.ltb;
  of_len := fun n => PrimFloat.of_uint63 (Uint63.of_Z (Z.of_nat n));
  threshold_value := 0x1.0624dd2f1a9fcp-11%float;
  damping_value := 0x1.b333333333333p-1%float
|}.

Module Generic.
Section Program.
Variable A : arith.

Definition transition_model (corpus : Corpus) (page : string)
  (damping_factor : num A) : result (dict (num A)) :=
  page_links <- getitem corpus page ;;
  let '(all_pages, probabilities) :=
    fold_left (fun st pages =>
                 (fst st ++ [pages], dict_set (snd st) pages (zero A)))
      (keys corpus) ([], []) in
  let probabilities :=
    fold_left (fun pr page =>
                 dict_set pr page
                   (mul A damping_factor
                      (div A (one A) (of_len A (List.length page_links)))))
      page_links probabilities in
  for_each (fun pr page =>
              old <- getitem pr page ;;
              Ok (dict_set pr page
                    (add A old
                       (mul A (sub A (one A) damping_factor)
                          (div A (one A) (of_len A (List.length all_pages)))))))
    all_pages probabilities.

Definition incoming (corpus : Corpus) (ranks : dict (num A)) (key : string)
  : result (num A) :=
  for_each (fun sigma page =>
              links <- getitem corpus page ;;
              if mem key links then
                r <- getitem ranks page ;;
                Ok (add A sigma (div A r (of_len A (List.length links))))
              else Ok sigma)
    (keys corpus) (zero A).

Definition update_rank (corpus : Corpus) (damping_factor : num A)
  (st : dict (num A) * nat) (key : string) : result (dict (num A) * nat) :=
  let '(ranks, count) := st in
  let new := div A (sub A (one A) damping_factor)
               (of_len A (List.length corpus)) in
  sigma <- incoming corpus ranks key ;;
  let sigma := mul A damping_factor sigma in
  let new := add A new sigma in
  old <- getitem ranks key ;;
  let count :=
    if less A (absolute A (sub A old new)) (threshold_value A)
    then S count else count in
  Ok (dict_set ranks key new, count).

Definition round (corpus : Corpus) (damping_factor : num A)
  (ranks : dict (num A)) : result (dict (num A) * nat) :=
  for_each (update_rank corpus damping_factor) (keys corpus) (ranks, O).

Fixpoint iterate_loop (fuel : nat) (corpus : Corpus) (damping_factor : num A)
  (ranks : dict (num A)) : option (result (dict (num A))) :=
  match fuel with
  | O => None
  | S fuel' =>
      match round corpus damping_factor ranks with
      | Raise e => Some (Raise e)
      | Ok (ranks', count) =>
          if Nat.eqb count (List.length corpus) then Some (Ok ranks')
          else iterate_loop fuel' corpus damping_factor ranks'
      end
  end.

Definition initial_ranks (corpus : Corpus) : dict (num A) :=
  let init := fun ranks key =>
    dict_set ranks key (div A (one A) (of_len A (List.length corpus))) in
  fold_left init (keys corpus) (fold_left init (keys corpus) []).

Definition iterate_pagerank (fuel : nat) (corpus : Corpus)
  (damping_factor : num A) : option (result (dict (num A))) :=
  iterate_loop fuel corpus damping_factor (initial_ranks corpus).

(** The random module; the weights of [random.choices] are numbers of
    the arithmetic. *)
Record Random : Type := {
  rng : Type;
  choice : list string -> rng -> result (string * rng);
  choices : list string -> list (num A) -> rng -> result (string * rng)
}.

Fixpoint sample_loop (R : Random) (corpus : Corpus) (damping_factor : num A)
  (n : nat) (i : nat) (createdPages current_probabilities : dict (num A))
  (g : rng R) : result (dict (num A)) :=
  match i with
  | O => Ok createdPages
  | S i' =>
      '(new_page, g) <-
        choices R (keys current_probabilities)
          (values current_probabilities) g ;;
      old <- getitem createdPages new_page ;;
      let createdPages :=
        dict_set createdPages new_page
          (add A old (div A (one A) (of_len A n))) in
      current_probabilities <-
        transition_model corpus new_page damping_factor ;;
      sample_loop R corpus damping_factor n i' createdPages
        current_probabilities g
  end.

Definition sample_pagerank (R : Random) (corpus : Corpus)
  (damping_factor : num A) (n : nat) (g : rng R) : result (dict (num A)) :=
  let pages := keys corpus in
  let createdPages :=
    fold_left (fun cp page => dict_set cp page (zero A)) pages [] in
  '(first_page, g) <- choice R pages g ;;
  inv_n <- (if Nat.eqb n 0 then Raise ZeroDivisionError
            else Ok (div A (one A) (of_len A n))) ;;
  let createdPages := dict_set createdPages first_page inv_n in
  current_probabilities <-
    transition_model corpus first_page damping_factor ;;
  sample_loop R corpus damping_factor n (n - 1) createdPages
    current_probabilities g.

(** [crawl] with its reads.  [os.listdir(directory)] gives the listing
    or raises; an entry of the listing is a file name with what
    [open(...)] and [f.read()] give for it, the text or the exception
    raised ([OSError] for a directory or a file that may not be read,
    [ValueError] for bytes that do not decode).  A file whose name does
    not end in [.html] is not opened. *)
Definition crawl (findall : string -> list string)
  (directory : result (list (string * result string))) : result Corpus :=
  listing <- directory ;;
  pages <-
    for_each (fun pages file =>
                if negb (endswith (fst file) ".html") then Ok pages
                else
                  contents <- snd file ;;
                  let links := findall contents in
                  Ok (dict_set pages (fst file)
                        (filter (fun link => negb (String.eqb link (fst file)))
                           (set_of links))))
      listing [] ;;
  for_each (fun pages filename =>
              links <- getitem pages filename ;;
              Ok (dict_set pages filename
                    (filter (fun link => mem link (keys pages)) links)))
    (keys pages) pages.

(** The lines [main] prints; a rank line keeps the number that
    [{ranks[page]:.4f}] formats. *)
Inductive line : Type :=
| SamplingTitle (n : nat)
| IterationTitle
| RankLine (page : string) (rank : num A).

Fixpoint print_ranks (ranks : dict (num A)) (pages : list string)
  (out : list line) : list line * option exn :=
  match pages with
  | [] => (out, None)
  | page :: pages' =>
      match dict_get ranks page with
      | Some rank => print_ranks ranks pages' (out ++ [RankLine page rank])
      | None => (out, Some (KeyError page))
      end
  end.

Definition main (findall : string -> list string)
  (listdir : string -> result (list (string * result string)))
  (R : Random) (argv : list string) (g : rng R) (fuel : nat)
  : option (list line * ending) :=
  if negb (Nat.eqb (List.length argv) 2) then
    Some ([], SystemExit "Usage: python pagerank.py corpus")
  else
    match crawl findall (listdir (nth 1 argv ""%string)) with
    | Raise e => Some ([], Uncaught e)
    | Ok corpus =>
        match sample_pagerank R corpus (damping_value A) SAMPLES g with
        | Raise e => Some ([], Uncaught e)
        | Ok ranks =>
            match print_ranks ranks (sorted (keys ranks))
                    [SamplingTitle SAMPLES] with
            | (out, Some e) => Some (out, Uncaught e)
            | (out, None) =>
                match iterate_pagerank fuel corpus (damping_value A) with
                | None => None
                | Some (Raise e) => Some (out, Uncaught e)
                | Some (Ok ranks) =>
                    match print_ranks ranks (sorted (keys ranks))
                            (out ++ [IterationTitle]) with
                    | (out, Some e) => Some (out, Uncaught e)
                    | (out, None) => Some (out, Finished)
                    end
                end
            end
        end
    end.
End Program.
End Generic.

(** * Definitions for the properties *)

(** ** Sets and dictionaries *)

(** The table of a function over a list of keys: the shape every
    dictionary of the program has once its keys are fixed. *)
Definition tab {V} (ks : list string) (f : string -> V) : dict V :=
  map (fun k => (k, f k)) ks.

Definition upd {V} (f : string -> V) (k : string) (v : V) : string -> V :=
  fun x => if String.eqb k x then v else f x.

(** ** transition_model in closed form *)

(** The probability [transition_model] gives page [k] when the current
    page has the link set [links]. *)
Definition transition_prob (corpus : Corpus) (links : list string)
  (damping_factor : Q) (k : string) : Q :=
  (if mem k links then damping_factor * (1 / len links) else 0)
  + (1 - damping_factor) * (1 / len (keys corpus)).

(** ** transition_model: the distribution it returns *)

(** Tables are printed with their fractions in lowest terms. *)
Definition lowest_terms (d : dict Q) : dict Q :=
  map (fun kv => (fst kv, Qred (snd kv))) d.

Definition on_result {A B} (f : A -> B) (r : result A) : result B :=
  match r with
  | Ok a => Ok (f a)
  | Raise e => Raise e
  end.

(** The spec's three-page scenario: B has no links. *)
Definition sink_corpus : Corpus :=
  [("A", ["B"; "C"]); ("B", []); ("C", ["A"])]%string.

(** The claim C10 makes, as a property of a corpus, a page and a damping
    factor: the call fails, and the exception is the spec's
    [UnknownNodeError]. *)
Definition fails_with_UnknownNodeError (corpus : Corpus) (page : string)
  (d : Q) : Prop :=
  exists e, transition_model corpus page d = Raise e /\
            exn_name e = "UnknownNodeError"%string.

(** ** sample_pagerank *)

(** A generator that replays a fixed list of uniform draws from [0,1),
    consumed the way CPython's [random] module consumes [random()]:
    [choice] indexes the sequence, [choices] walks the cumulative
    weights. *)
Definition draw (g : list Q) : Q * list Q :=
  match g with
  | [] => (0, [])
  | u :: g' => (u, g')
  end.

Fixpoint pick (x acc : Q) (pop : list string) (w : list Q) (last : string)
  : string :=
  match pop, w with
  | p :: pop', wi :: w' =>
      if Qltb x (acc + wi) then p else pick x (acc + wi) pop' w' p
  | _, _ => last
  end.

Definition replay_choice (pop : list string) (g : list Q)
  : result (string * list Q) :=
  match pop with
  | [] => Raise IndexError
  | p0 :: _ =>
      let (u, g') := draw g in
      Ok (nth (Z.to_nat (Qfloor (u * len pop))) pop (last pop p0), g')
  end.

Definition replay_choices (pop : list string) (w : list Q) (g : list Q)
  : result (string * list Q) :=
  match pop with
  | [] => Raise IndexError
  | p0 :: _ =>
      if negb (Nat.eqb (List.length w) (List.length pop)) then Raise ValueError
      else if Qle_bool (Qsum w) 0 then Raise ValueError
      else let (u, g') := draw g in Ok (pick (u * Qsum w) 0 pop w p0, g')
  end.

Definition replay : Random :=
  {| rng := list Q; choice := replay_choice; choices := replay_choices |}.

(** ** iterate_pagerank: one round, as a function on tables *)

(** [sigma] for [key] when the table holds [r]: the inner loop, entry by
    entry. *)
Definition sigma_of (corpus : Corpus) (r : string -> Q) (key : string) : Q :=
  fold_left (fun sigma e =>
               if mem key (snd e) then sigma + r (fst e) / len (snd e)
               else sigma)
    corpus 0.

(** The value [new] the loop body computes for [key] from the table [r]. *)
Definition new_rank (corpus : Corpus) (d : Q) (r : string -> Q) (key : string)
  : Q :=
  (1 - d) / len corpus + d * sigma_of corpus r key.

(** The table after the keys [todo] have been processed, in order. *)
Fixpoint sweep (corpus : Corpus) (d : Q) (todo : list string)
  (r : string -> Q) : string -> Q :=
  match todo with
  | [] => r
  | k :: todo' => sweep corpus d todo' (upd r k (new_rank corpus d r k))
  end.

(** How many of the keys [todo] pass the threshold test. *)
Fixpoint hits (corpus : Corpus) (d : Q) (todo : list string)
  (r : string -> Q) : nat :=
  match todo with
  | [] => O
  | k :: todo' =>
      ((if Qltb (Qabs (r k - new_rank corpus d r k)) threshold then 1 else 0)
       + hits corpus d todo' (upd r k (new_rank corpus d r k)))%nat
  end.

(** Every entry of [before] moved by less than [eps] in [after]. *)
Definition changes_below (eps : Q) (before after : dict Q) : bool :=
  forallb (fun kv => match dict_get after (fst kv) with
                     | Some v => Qltb (Qabs (snd kv - v)) eps
                     | None => false
                     end) before.

(** [t] passes of the loop body, whatever [count] says. *)
Fixpoint rounds (t : nat) (corpus : Corpus) (d : Q) (ranks : dict Q)
  : result (dict Q) :=
  match t with
  | O => Ok ranks
  | S t' => st <- round corpus d ranks ;; rounds t' corpus d (fst st)
  end.

(** A hub: B and C link to A, A links to B; no page is a sink. *)
Definition hub_corpus : Corpus :=
  [("A", ["B"]); ("B", ["A"]); ("C", ["A"])]%string.

(** The same graph with its pages listed in another order. *)
Definition hub_corpus_reordered : Corpus :=
  [("C", ["A"]); ("B", ["A"]); ("A", ["B"])]%string.

(** ** iterate_pagerank: in-place update *)

(** The claim C5 makes about one round started from the table [ranks]:
    the value written for every page is the update rule read off
    [ranks] itself. *)
Definition reads_previous_round_only (corpus : Corpus) (d : Q)
  (ranks : dict Q) : Prop :=
  exists table count,
    round corpus d ranks = Ok (table, count) /\
    forall k, In k (keys corpus) ->
      exists sigma v,
        incoming corpus ranks k = Ok sigma /\
        dict_get table k = Some v /\
        v == (1 - d) / len corpus + d * sigma.

(** ** iterate_pagerank: convergence *)

(** The share of the rank of the entry [e] that page [k] receives. *)
Definition weight (k : string) (e : string * list string) : Q :=
  if mem k (snd e) then 1 / len (snd e) else 0.

(** How far the tables [a] and [b] are apart at the page of [e]. *)
Definition gap (a b : string -> Q) (e : string * list string) : Q :=
  Qabs (b (fst e) - a (fst e)).

(** The potential of the loop.  [rot] lists the entries of the corpus
    starting at the page the loop is about to process; the gap at each
    entry counts in full, less the damped share of it that the pages
    after it in [rot] have already taken up. *)
Fixpoint potential (d : Q) (a b : string -> Q) (rot : Corpus) : Q :=
  match rot with
  | [] => 0
  | e :: rest =>
      gap a b e * (1 - d * Qsum (map (fun e' => weight (fst e') e) rest))
      + potential d a b rest
  end.

(** The table after [t] rounds. *)
Fixpoint after_rounds (corpus : Corpus) (d : Q) (t : nat) (r : string -> Q)
  : string -> Q :=
  match t with
  | O => r
  | S t' => after_rounds corpus d t' (sweep corpus d (keys corpus) r)
  end.

(** ** iterate_pagerank: the threshold *)

(** The loop of [iterate_pagerank] has ended once a round has moved
    every rank by less than [eps]: the property a threshold [eps] in
    force would give. *)
Definition ends_once_below (eps : Q) (corpus : Corpus) (d : Q) : Prop :=
  forall t before after,
    rounds t corpus d (initial_ranks corpus) = Ok before ->
    rounds (S t) corpus d (initial_ranks corpus) = Ok after ->
    changes_below eps before after = true ->
    exists table, iterate_pagerank (S t) corpus d = Some (Ok table).

(** ** crawl *)

(** The pages of a listing: the names that end in [.html]. *)
Definition html_files (directory : list (string * string))
  : list (string * string) :=
  filter (fun file => endswith (fst file) ".html") directory.

(** ** The order inside a link set *)

(** Two corpora with the same pages in the same order and, page by
    page, the same link set, listed in any order: what a Python [set]
    leaves open. *)
Definition same_sets (c c' : Corpus) : Prop :=
  Forall2 (fun e e' => fst e = fst e' /\ Permutation (snd e) (snd e')) c c'.

(** ** sample_pagerank with a log of the pages it counts

    The sampler once more, unchanged but for a list [visited] to which
    every page is added at the moment its counter is raised. *)

Section SamplingLog.
Variable R : Random.

Fixpoint sample_loop_log (corpus : Corpus) (damping_factor : Q) (n : nat)
  (i : nat) (createdPages : dict Q) (visited : list string)
  (current_probabilities : dict Q) (g : rng R)
  : result (dict Q * list string) :=
  match i with
  | O => Ok (createdPages, visited)
  | S i' =>
      '(new_page, g) <-
        choices R (keys current_probabilities)
          (values current_probabilities) g ;;
      old <- getitem createdPages new_page ;;
      let createdPages :=
        dict_set createdPages new_page (old + 1 / inject_Z (Z.of_nat n)) in
      let visited := visited ++ [new_page] in
      current_probabilities <-
        transition_model corpus new_page damping_factor ;;
      sample_loop_log corpus damping_factor n i' createdPages visited
        current_probabilities g
  end.

Definition sample_pagerank_log (corpus : Corpus) (damping_factor : Q)
  (n : nat) (g : rng R) : result (dict Q * list string) :=
  let pages := keys corpus in
  let createdPages := fold_left (fun cp page => dict_set cp page 0) pages [] in
  '(first_page, g) <- choice R pages g ;;
  inv_n <- (if Nat.eqb n 0 then Raise ZeroDivisionError
            else Ok (1 / inject_Z (Z.of_nat n))) ;;
  let createdPages := dict_set createdPages first_page inv_n in
  let visited := [first_page] in
  current_probabilities <-
    transition_model corpus first_page damping_factor ;;
  sample_loop_log corpus damping_factor n (n - 1) createdPages visited
    current_probabilities g.
End SamplingLog.

(** ** Scenarios for binary64 *)

(** A three-page cycle A -> B -> C -> A with a fourth page D that links
    into it; the pages are listed C, B, A, D. *)
Definition cycle_corpus : Corpus :=
  [("C", ["A"]); ("B", ["C"]); ("A", ["B"]); ("D", ["B"])]%string.

(** [0.9999999999999999], the largest double below 1. *)
Definition damping_near_one : float := 0x1.fffffffffffffp-1%float.

(** The two tables between which the binary64 run on the cycle
    alternates. *)
Definition cycle_table_odd : dict float :=
  [("C", 0x1p-2); ("B", 0x1p-1); ("A", 0x1p-2); ("D", 0x1p-55)]%string%float.

Definition cycle_table_even : dict float :=
  [("C", 0x1p-1); ("B", 0x1p-2); ("A", 0x1p-1); ("D", 0x1p-55)]%string%float.

(** [1e-17] as a double. *)
Definition damping_tiny : float := 0x1.70ef54646d497p-57%float.

(** [0.85] as a double. *)
Definition damping_085 : float := 0x1.b333333333333p-1%float.

(** The claim C7 makes, read in the arithmetic the program runs in:
    every linked page gets [d/|links| + (1 - d)/N], no page gets less
    than [(1 - d)/N], and a linked page gets more than a page that is
    not linked. *)
Definition linked_claim (A : arith) (corpus : Corpus) (page : string)
  (d : num A) : Prop :=
  exists links dist,
    getitem corpus page = Ok links /\
    Generic.transition_model A corpus page d = Ok dist /\
    (forall k p, In k links -> dict_get dist k = Some p ->
       p = add A (div A d (of_len A (List.length links)))
             (div A (sub A (one A) d) (of_len A (List.length corpus)))) /\
    (forall k p, In k (keys corpus) -> dict_get dist k = Some p ->
       less A p (div A (sub A (one A) d) (of_len A (List.length corpus)))
       = false) /\
    (forall k k' p p',
       (List.length links < List.length corpus)%nat ->
       In k links -> In k' (keys corpus) -> ~ In k' links ->
       dict_get dist k = Some p -> dict_get dist k' = Some p' ->
       less A p' p = true).

(** ** The whole program *)

(** The page of a rank line. *)
Definition page_of {A : arith} (l : Generic.line A) : option string :=
  match l with
  | Generic.RankLine _ page _ => Some page
  | _ => None
  end.

(** The listing with the text of each file that was read. *)
Definition read_texts (listing : list (string * result string))
  : list (string * string) :=
  map (fun file =>
         (fst file,
          match snd file with
          | Ok contents => contents
          | Raise _ => ""%string
          end))
    listing.

(** A random source of the exact reading, as a random source of the
    program over the exact arithmetic. *)
Definition exact_random (R : Random) : Generic.Random exact :=
  Generic.Build_Random exact (rng R) (choice R) (choices R).

(** A random source for the examples: it ignores the weights and walks
    through the population, one member further at every draw. *)
Definition walk (pop : list string) (g : nat) : result (string * nat) :=
  match pop with
  | [] => Raise IndexError
  | p :: _ => Ok (nth (g mod List.length pop) pop p, S g)
  end.

Definition round_robin (A : arith) : Generic.Random A := {|
  Generic.rng := nat;
  Generic.choice := walk;
  Generic.choices := fun pop _ g => walk pop g
|}.

(** * Properties *)

(** ** Sets and dictionaries *)

Lemma mem_In (k : string) (s : list string) : mem k s = true <-> In k s.
Proof.
  induction s as [|x s IH]; simpl.
  - split; [discriminate | tauto].
  - rewrite orb_true_iff, IH, String.eqb_eq. intuition congruence.
Qed.

Lemma mem_not_In (k : string) (s : list string) : mem k s = false <-> ~ In k s.
Proof.
  rewrite <- mem_In. destruct (mem k s); intuition congruence.
Qed.

Lemma nodupb_NoDup (l : list string) : nodupb l = true <-> NoDup l.
Proof.
  induction l as [|x l IH]; simpl.
  - split; [constructor | reflexivity].
  - rewrite andb_true_iff, negb_true_iff, mem_not_In, IH.
    split; [intros [? ?]; now constructor | now inversion 1].
Qed.

Lemma keys_tab {V} ks (f : string -> V) : keys (tab ks f) = ks.
Proof.
  unfold keys, tab. rewrite map_map. simpl. apply map_id.
Qed.

Lemma values_tab {V} ks (f : string -> V) : values (tab ks f) = map f ks.
Proof.
  unfold values, tab. now rewrite map_map.
Qed.

Lemma tab_ext {V} ks (f g : string -> V) :
  (forall k, In k ks -> f k = g k) -> tab ks f = tab ks g.
Proof.
  intros H. apply map_ext_in. intros k Hk. now rewrite H.
Qed.

Lemma dict_get_tab {V} ks (f : string -> V) k :
  In k ks -> dict_get (tab ks f) k = Some (f k).
Proof.
  induction ks as [|x ks IH]; simpl; [tauto|].
  intros H. destruct (String.eqb_spec k x) as [->|Hne]; [reflexivity|].
  apply IH. destruct H; congruence.
Qed.

Lemma dict_get_tab_None {V} ks (f : string -> V) k :
  ~ In k ks -> dict_get (tab ks f) k = None.
Proof.
  induction ks as [|x ks IH]; simpl; [reflexivity|].
  intros H. destruct (String.eqb_spec k x) as [->|Hne]; [tauto|].
  apply IH. tauto.
Qed.

Lemma getitem_tab {V} ks (f : string -> V) k :
  In k ks -> getitem (tab ks f) k = Ok (f k).
Proof.
  intros H. unfold getitem. now rewrite dict_get_tab.
Qed.

Lemma dict_set_tab {V} ks (f : string -> V) k v :
  NoDup ks -> In k ks -> dict_set (tab ks f) k v = tab ks (upd f k v).
Proof.
  induction ks as [|x ks IH]; simpl; [tauto|].
  intros Hnd Hin. inversion Hnd as [|? ? Hx Hnd']; subst.
  unfold upd at 1. destruct (String.eqb_spec k x) as [->|Hne].
  - f_equal. apply tab_ext. intros y Hy. unfold upd.
    destruct (String.eqb_spec x y); congruence.
  - f_equal. apply IH; [assumption|]. destruct Hin; congruence.
Qed.

Lemma dict_set_fresh {V} (d : dict V) k v :
  ~ In k (keys d) -> dict_set d k v = d ++ [(k, v)].
Proof.
  induction d as [|[x w] d IH]; simpl; [reflexivity|].
  intros H. destruct (String.eqb_spec k x) as [->|Hne]; [tauto|].
  f_equal. apply IH. tauto.
Qed.

(** Filling a dictionary with one value per key, as the initialising
    loops do, builds the constant table. *)
Lemma fill_fresh {V} (v : V) ks : forall pre,
  NoDup (pre ++ ks) ->
  fold_left (fun d k => dict_set d k v) ks (tab pre (fun _ => v))
  = tab (pre ++ ks) (fun _ => v).
Proof.
  induction ks as [|k ks IH]; intros pre Hnd; simpl.
  - now rewrite app_nil_r.
  - rewrite dict_set_fresh.
    + replace (tab pre (fun _ => v) ++ [(k, v)])
        with (tab (pre ++ [k]) (fun _ : string => v))
        by (unfold tab; now rewrite map_app).
      rewrite IH; rewrite <- app_assoc; [reflexivity | assumption].
    + rewrite keys_tab. apply NoDup_remove_2 in Hnd.
      intros Hin. apply Hnd. apply in_or_app. now left.
Qed.

Lemma fill_tab {V} (v : V) ks :
  NoDup ks ->
  fold_left (fun d k => dict_set d k v) ks [] = tab ks (fun _ => v).
Proof.
  intros H. apply (fill_fresh v ks []). exact H.
Qed.

(** A dictionary's own lookups describe its entries. *)
Lemma getitem_entry {V} (d : dict V) k v :
  NoDup (keys d) -> In (k, v) d -> getitem d k = Ok v.
Proof.
  unfold getitem.
  induction d as [|[x w] d IH]; simpl; [tauto|].
  intros Hnd Hin. inversion Hnd as [|? ? Hx Hnd']; subst.
  destruct Hin as [Heq|Hin].
  - inversion Heq; subst. now rewrite String.eqb_refl.
  - destruct (String.eqb_spec k x) as [->|Hne].
    + exfalso. apply Hx. change x with (fst (x, v)). now apply in_map.
    + now apply IH.
Qed.

Lemma getitem_Ok_In {V} (d : dict V) k v :
  getitem d k = Ok v -> In (k, v) d.
Proof.
  unfold getitem.
  induction d as [|[x w] d IH]; simpl; [discriminate|].
  destruct (String.eqb_spec k x) as [->|Hne].
  - intros H. inversion H. now left.
  - intros H. right. now apply IH.
Qed.

Lemma getitem_missing {V} (d : dict V) k :
  ~ In k (keys d) -> getitem d k = Raise (KeyError k).
Proof.
  unfold getitem.
  induction d as [|[x w] d IH]; simpl; [reflexivity|].
  intros H. destruct (String.eqb_spec k x) as [->|Hne]; [tauto|].
  apply IH. tauto.
Qed.

(** ** Sums of rationals *)

Lemma len_cons {A} (x : A) l : len (x :: l) == 1 + len l.
Proof.
  unfold len. simpl List.length. rewrite Nat2Z.inj_succ, <- Z.add_1_l.
  rewrite inject_Z_plus. reflexivity.
Qed.

Lemma len_nonneg {A} (l : list A) : 0 <= len l.
Proof.
  unfold len. change 0 with (inject_Z 0). rewrite <- Zle_Qle. lia.
Qed.

Lemma len_pos {A} (l : list A) : l <> [] -> 0 < len l.
Proof.
  destruct l as [|x l]; [congruence|]. intros _.
  rewrite len_cons. pose proof (len_nonneg l). lra.
Qed.

Lemma len_eq {A B} (l : list A) (l' : list B) :
  List.length l = List.length l' -> len l = len l'.
Proof.
  unfold len. now intros ->.
Qed.

Lemma Qsum_app l l' : Qsum (l ++ l') == Qsum l + Qsum l'.
Proof.
  induction l as [|x l IH]; simpl; [ring|]. rewrite IH. ring.
Qed.

Lemma Qsum_map_ext {A} (f g : A -> Q) l :
  (forall x, In x l -> f x == g x) -> Qsum (map f l) == Qsum (map g l).
Proof.
  induction l as [|x l IH]; simpl; intros H; [reflexivity|].
  rewrite (H x), IH by auto. reflexivity.
Qed.

Lemma Qsum_map_le {A} (f g : A -> Q) l :
  (forall x, In x l -> f x <= g x) -> Qsum (map f l) <= Qsum (map g l).
Proof.
  induction l as [|x l IH]; simpl; intros H; [lra|].
  pose proof (H x (or_introl eq_refl)). specialize (IH (fun y Hy => H y (or_intror Hy))).
  lra.
Qed.

Lemma Qsum_map_plus {A} (f g : A -> Q) l :
  Qsum (map (fun x => f x + g x) l) == Qsum (map f l) + Qsum (map g l).
Proof.
  induction l as [|x l IH]; simpl; [ring|]. rewrite IH. ring.
Qed.

Lemma Qsum_map_scale {A} c (f : A -> Q) l :
  Qsum (map (fun x => c * f x) l) == c * Qsum (map f l).
Proof.
  induction l as [|x l IH]; simpl; [ring|]. rewrite IH. ring.
Qed.

Lemma Qsum_map_const {A} c (l : list A) :
  Qsum (map (fun _ => c) l) == c * len l.
Proof.
  induction l as [|x l IH]; simpl Qsum.
  - unfold len. simpl. ring.
  - rewrite IH, len_cons. ring.
Qed.

Lemma Qsum_map_nonneg {A} (f : A -> Q) l :
  (forall x, In x l -> 0 <= f x) -> 0 <= Qsum (map f l).
Proof.
  induction l as [|x l IH]; simpl; intros H; [lra|].
  pose proof (H x (or_introl eq_refl)). specialize (IH (fun y Hy => H y (or_intror Hy))).
  lra.
Qed.

Lemma Qsum_perm l l' : Permutation l l' -> Qsum l == Qsum l'.
Proof.
  induction 1; simpl; try lra.
Qed.

(** Summing an indicator of [s] over a list counts the members of [s]. *)
Lemma Qsum_indicator_filter a s l :
  Qsum (map (fun k => if mem k s then a else 0) l)
  == a * len (filter (fun k => mem k s) l).
Proof.
  induction l as [|x l IH]; simpl Qsum; simpl filter.
  - unfold len. simpl. ring.
  - rewrite IH. destruct (mem x s); [rewrite len_cons|]; ring.
Qed.

Lemma filter_mem_length s l :
  NoDup l -> NoDup s -> incl s l ->
  List.length (filter (fun k => mem k s) l) = List.length s.
Proof.
  intros Hl Hs Hincl. apply Permutation_length. apply NoDup_Permutation.
  - now apply NoDup_filter.
  - assumption.
  - intros x. rewrite filter_In, mem_In. split; [tauto|]. intros H. split; auto.
Qed.

Lemma filter_mem_length_le s l :
  NoDup l -> (List.length (filter (fun k => mem k s) l) <= List.length s)%nat.
Proof.
  intros Hl. apply NoDup_incl_length.
  - now apply NoDup_filter.
  - intros x. rewrite filter_In, mem_In. tauto.
Qed.

Lemma Qsum_indicator a s l :
  NoDup l -> NoDup s -> incl s l ->
  Qsum (map (fun k => if mem k s then a else 0) l) == a * len s.
Proof.
  intros Hl Hs Hincl. rewrite Qsum_indicator_filter.
  rewrite (len_eq _ s) by now apply filter_mem_length. reflexivity.
Qed.

(** ** transition_model in closed form *)

Lemma collect_pages ks : forall (ap : list string) (pr : dict Q),
  fold_left (fun st pages => (fst st ++ [pages], dict_set (snd st) pages 0))
    ks (ap, pr)
  = (ap ++ ks, fold_left (fun d k => dict_set d k 0) ks pr).
Proof.
  induction ks as [|k ks IH]; intros ap pr; simpl.
  - now rewrite app_nil_r.
  - rewrite IH, <- app_assoc. reflexivity.
Qed.

Lemma assign_links ks v ls : forall f : string -> Q,
  NoDup ks -> incl ls ks ->
  fold_left (fun pr page => dict_set pr page v) ls (tab ks f)
  = tab ks (fun k => if mem k ls then v else f k).
Proof.
  induction ls as [|l ls IH]; intros f Hnd Hincl; simpl; [reflexivity|].
  rewrite dict_set_tab by (auto using in_eq).
  rewrite IH by (auto; intros x Hx; apply Hincl; now right).
  apply tab_ext. intros k _. unfold upd.
  rewrite (String.eqb_sym k l).
  destruct (String.eqb l k); simpl; [|reflexivity].
  now destruct (mem k ls).
Qed.

Lemma add_floor ks c ps : forall f : string -> Q,
  NoDup ks -> NoDup ps -> incl ps ks ->
  for_each (fun pr page => old <- getitem pr page ;;
                           Ok (dict_set pr page (old + c))) ps (tab ks f)
  = Ok (tab ks (fun k => if mem k ps then f k + c else f k)).
Proof.
  induction ps as [|p ps IH]; intros f Hnd Hps Hincl; simpl; [reflexivity|].
  inversion Hps as [|? ? Hp Hps']; subst.
  rewrite getitem_tab by (auto using in_eq). simpl.
  rewrite dict_set_tab by (auto using in_eq).
  rewrite IH by (auto; intros x Hx; apply Hincl; now right).
  f_equal. apply tab_ext. intros k _. unfold upd.
  rewrite (String.eqb_sym k p).
  destruct (String.eqb_spec p k) as [->|Hne]; simpl; [|reflexivity].
  apply mem_not_In in Hp. now rewrite Hp.
Qed.

Lemma transition_model_closed_form corpus page d links :
  NoDup (keys corpus) -> getitem corpus page = Ok links ->
  incl links (keys corpus) ->
  transition_model corpus page d
  = Ok (tab (keys corpus) (transition_prob corpus links d)).
Proof.
  intros Hnd Hget Hincl. unfold transition_model. rewrite Hget. simpl.
  rewrite collect_pages. simpl. rewrite fill_tab by assumption.
  rewrite assign_links by assumption.
  rewrite add_floor by (auto using incl_refl).
  f_equal. apply tab_ext. intros k Hk. unfold transition_prob.
  apply mem_In in Hk. now rewrite Hk.
Qed.

(** A page that is not a key stops the function at [corpus[page]]. *)
Lemma transition_model_missing corpus page d :
  ~ In page (keys corpus) ->
  transition_model corpus page d = Raise (KeyError page).
Proof.
  intros H. unfold transition_model. now rewrite getitem_missing.
Qed.

Lemma links_closed_incl corpus page links :
  links_closed corpus = true -> getitem corpus page = Ok links ->
  incl links (keys corpus).
Proof.
  unfold links_closed. rewrite forallb_forall. intros H Hget x Hx.
  apply getitem_Ok_In in Hget.
  specialize (H links (in_map snd _ _ Hget)). rewrite forallb_forall in H.
  apply mem_In. now apply H.
Qed.

Lemma wf_corpus_keys corpus : wf_corpus corpus = true -> NoDup (keys corpus).
Proof.
  unfold wf_corpus. rewrite andb_true_iff. intros [H _].
  now apply nodupb_NoDup.
Qed.

Lemma wf_corpus_links corpus page links :
  wf_corpus corpus = true -> getitem corpus page = Ok links -> NoDup links.
Proof.
  unfold wf_corpus. rewrite andb_true_iff, forallb_forall. intros [_ H] Hget.
  apply getitem_Ok_In in Hget. apply nodupb_NoDup, H.
  now apply (in_map snd) in Hget.
Qed.

Lemma getitem_key {V} (d : dict V) k :
  In k (keys d) -> exists v, getitem d k = Ok v.
Proof.
  unfold getitem.
  induction d as [|[x w] d IH]; simpl; [tauto|].
  intros H. destruct (String.eqb_spec k x) as [->|Hne]; [eauto|].
  apply IH. destruct H; congruence.
Qed.

(** The total mass of a transition distribution: all of it when the
    page has links, only the random-jump share [1 - d] when it has
    none. *)
Lemma transition_prob_sum corpus links d :
  corpus <> [] -> NoDup (keys corpus) -> NoDup links ->
  incl links (keys corpus) ->
  Qsum (map (transition_prob corpus links d) (keys corpus))
  == match links with [] => 0 | _ => d end + (1 - d).
Proof.
  intros Hne Hnd Hl Hincl. unfold transition_prob.
  rewrite Qsum_map_plus, Qsum_map_const, Qsum_indicator by assumption.
  assert (HN : 0 < len (keys corpus)).
  { apply len_pos. destruct corpus; [congruence|discriminate]. }
  destruct links as [|l links].
  - change (len (@nil string)) with 0.
    setoid_replace (d * (1 / 0) * 0) with 0 by ring. field. lra.
  - assert (HL : 0 < len (l :: links)) by (apply len_pos; discriminate).
    field. lra.
Qed.

(** ** transition_model: the distribution it returns *)

Lemma transition_model_total corpus page d :
  wf_corpus corpus = true -> links_closed corpus = true ->
  In page (keys corpus) ->
  exists links,
    getitem corpus page = Ok links /\ NoDup links /\
    incl links (keys corpus) /\
    transition_model corpus page d
    = Ok (tab (keys corpus) (transition_prob corpus links d)).
Proof.
  intros Hwf Hcl Hin. destruct (getitem_key corpus page Hin) as [links Hget].
  exists links. pose proof (links_closed_incl _ _ _ Hcl Hget) as Hincl.
  repeat split; eauto using wf_corpus_links.
  apply transition_model_closed_form; auto using wf_corpus_keys.
Qed.

(** With at least one link the distribution sums to 1. *)
Lemma transition_model_sum_linked corpus page d links :
  wf_corpus corpus = true -> links_closed corpus = true ->
  getitem corpus page = Ok links -> links <> [] ->
  exists dist, transition_model corpus page d = Ok dist /\
               keys dist = keys corpus /\ Qsum (values dist) == 1.
Proof.
  intros Hwf Hcl Hget Hl.
  pose proof (links_closed_incl _ _ _ Hcl Hget) as Hincl.
  pose proof (wf_corpus_keys _ Hwf) as Hnd.
  eexists. split; [apply transition_model_closed_form; eassumption|].
  rewrite keys_tab, values_tab. split; [reflexivity|].
  rewrite transition_prob_sum; eauto using wf_corpus_links.
  - destruct links; [congruence | ring].
  - intros ->. apply getitem_Ok_In in Hget. destruct Hget.
Qed.

(** On a page without links every page gets [(1 - d)/N], and the
    distribution sums to [1 - d]. *)
Lemma transition_model_sink corpus page d :
  wf_corpus corpus = true -> getitem corpus page = Ok [] ->
  exists dist, transition_model corpus page d = Ok dist /\
               keys dist = keys corpus /\
               (forall k, In k (keys corpus) ->
                  exists p, dict_get dist k = Some p /\
                            p == (1 - d) / len corpus) /\
               Qsum (values dist) == 1 - d.
Proof.
  intros Hwf Hget. pose proof (wf_corpus_keys _ Hwf) as Hnd.
  assert (Hne : corpus <> []).
  { intros ->. apply getitem_Ok_In in Hget. destruct Hget. }
  eexists. split.
  { apply transition_model_closed_form; eauto. intros x []. }
  rewrite keys_tab, values_tab. split; [reflexivity|]. split.
  - intros k Hk. rewrite dict_get_tab by assumption. eexists. split; eauto.
    unfold transition_prob. simpl.
    rewrite (len_eq (keys corpus) corpus) by apply length_map.
    pose proof (len_pos corpus Hne). field. lra.
  - rewrite transition_prob_sum; auto; [ring | constructor | intros x []].
Qed.

(** C1, at the sink of the three-page scenario: the values
    [transition_model] returns for page B sum to 3/20 (that is
    [1 - 0.85]), not to 1 within 1e-9. *)
Theorem transition_model_sink_mass :
  exists dist,
    transition_model sink_corpus "B" (85 # 100) = Ok dist /\
    keys dist = keys sink_corpus /\
    Qsum (values dist) == 15 # 100 /\
    ~ Qabs (Qsum (values dist) - 1) <= 1 # 1000000000.
Proof.
  eexists. split; [vm_compute; reflexivity|].
  split; [reflexivity|]. split; [reflexivity|].
  vm_compute. intros H. now apply H.
Qed.

(** C2, at the same sink: every page gets 1/20, that is [(1 - 0.85)/3],
    where the uniform distribution over three pages gives 1/3. *)
Theorem transition_model_sink_not_uniform :
  on_result lowest_terms (transition_model sink_corpus "B" (85 # 100))
  = Ok [("A", 1 # 20); ("B", 1 # 20); ("C", 1 # 20)]%string
  /\ ~ (1 # 20) == 1 / len sink_corpus.
Proof.
  split; [vm_compute; reflexivity | discriminate].
Qed.

(** C10 as stated fails: asking the three-page corpus for the unknown
    page D raises Python's [KeyError]. *)
Lemma transition_model_unknown_page_counterexample :
  ~ In "D"%string (keys sink_corpus) /\
  transition_model sink_corpus "D" (85 # 100) = Raise (KeyError "D") /\
  ~ fails_with_UnknownNodeError sink_corpus "D" (85 # 100).
Proof.
  split; [|split].
  - simpl. intuition discriminate.
  - reflexivity.
  - intros [e [He Hname]]. vm_compute in He. inversion He; subst.
    discriminate Hname.
Qed.

(** C10, amended: a page that is not a key of the corpus makes
    [transition_model] raise [KeyError] for that page, at [corpus[page]],
    before any table is built; nothing is returned. *)
Theorem transition_model_unknown_page corpus page d :
  ~ In page (keys corpus) ->
  transition_model corpus page d = Raise (KeyError page) /\
  exn_name (KeyError page) = "KeyError"%string.
Proof.
  intros H. split; [now apply transition_model_missing | reflexivity].
Qed.

Lemma transition_model_unknown_page_witness :
  transition_model sink_corpus "D" (85 # 100) = Raise (KeyError "D") /\
  exn_name (KeyError "D") = "KeyError"%string.
Proof.
  apply (transition_model_unknown_page sink_corpus "D" (85 # 100)).
  simpl. intuition discriminate.
Defined.

(** ** sample_pagerank *)

Lemma Qsum_counts (cnt : string -> nat) c ks :
  Qsum (map (fun k => inject_Z (Z.of_nat (cnt k)) * c) ks)
  == inject_Z (Z.of_nat (list_sum (map cnt ks))) * c.
Proof.
  induction ks as [|k ks IH]; simpl; [ring|].
  rewrite IH, Nat2Z.inj_add, inject_Z_plus. ring.
Qed.

Lemma transition_prob_mass corpus links d :
  corpus <> [] -> NoDup (keys corpus) -> NoDup links ->
  incl links (keys corpus) -> d < 1 ->
  0 < Qsum (map (transition_prob corpus links d) (keys corpus)).
Proof.
  intros Hne Hnd Hl Hincl Hd. rewrite transition_prob_sum by assumption.
  destruct links; lra.
Qed.

(** The log does not change what the sampler returns. *)
Lemma sample_loop_log_erase (R : Random) corpus d n :
  forall i cp visited cur (g : rng R),
  sample_loop R corpus d n i cp cur g
  = on_result fst (sample_loop_log R corpus d n i cp visited cur g).
Proof.
  induction i as [|i IH]; intros cp visited cur g; simpl; [reflexivity|].
  destruct (choices R (keys cur) (values cur) g) as [[x g']|e]; simpl;
    [|reflexivity].
  destruct (getitem cp x) as [old|e]; simpl; [|reflexivity].
  destruct (transition_model corpus x d) as [cur'|e]; simpl; [|reflexivity].
  apply IH.
Qed.

Lemma sample_pagerank_log_erase (R : Random) corpus d n (g : rng R) :
  sample_pagerank R corpus d n g
  = on_result fst (sample_pagerank_log R corpus d n g).
Proof.
  unfold sample_pagerank, sample_pagerank_log.
  destruct (choice R (keys corpus) g) as [[first g']|e]; simpl; [|reflexivity].
  destruct (Nat.eqb n 0); simpl; [reflexivity|].
  destruct (transition_model corpus first d) as [cur|e]; simpl; [|reflexivity].
  apply sample_loop_log_erase.
Qed.

(** Every page of a duplicate-free list that covers [visited] is
    counted once per visit, so the counts add up to the number of
    visits. *)
Lemma count_occ_total ks : forall visited : list string,
  NoDup ks -> incl visited ks ->
  list_sum (map (count_occ string_dec visited) ks) = List.length visited.
Proof.
  intros visited Hnd. induction visited as [|x visited IH]; intros Hincl.
  - simpl. clear. induction ks; simpl; auto.
  - assert (Hx : In x ks) by (apply Hincl; now left).
    assert (Hrest : incl visited ks) by (intros y Hy; apply Hincl; now right).
    specialize (IH Hrest). simpl List.length. rewrite <- IH. clear IH Hincl Hrest.
    induction ks as [|k ks IHks]; [destruct Hx|].
    inversion Hnd as [|? ? Hk Hnd']; subst.
    unfold list_sum in *. cbn [map fold_right].
    destruct (string_dec x k) as [->|Hne].
    + assert (Heq : map (count_occ string_dec (k :: visited)) ks
                    = map (count_occ string_dec visited) ks).
      { apply map_ext_in. intros y Hy. apply count_occ_cons_neq.
        intros ->. contradiction. }
      rewrite Heq, count_occ_cons_eq by reflexivity. lia.
    + destruct Hx as [|Hx]; [congruence|]. specialize (IHks Hnd' Hx).
      rewrite count_occ_cons_neq by assumption. lia.
Qed.

Section SamplingProperties.
Variable R : Random.
Hypothesis HR : RandomSpec R.
Variable corpus : Corpus.
Variable d : Q.
Variable n : nat.
Hypothesis Hwf : wf_corpus corpus = true.
Hypothesis Hclosed : links_closed corpus = true.
Hypothesis Hne : corpus <> [].
Hypothesis Hd : d < 1.

Let ks := keys corpus.
Let share := 1 / inject_Z (Z.of_nat n).

(** Each pass of the loop draws one page, adds [1/n] to the entry of
    that page and to no other, and logs the page: whatever the
    generator draws, [i] passes succeed, log [i] pages of the corpus
    and leave every entry raised by [1/n] per logged visit. *)
Lemma sample_loop_log_counts : forall i f visited links g,
  NoDup links -> incl links ks ->
  exists f' drawn,
    sample_loop_log R corpus d n i (tab ks f) visited
      (tab ks (transition_prob corpus links d)) g
    = Ok (tab ks f', visited ++ drawn) /\
    List.length drawn = i /\ incl drawn ks /\
    forall k, In k ks ->
      f' k == f k + inject_Z (Z.of_nat (count_occ string_dec drawn k)) * share.
Proof.
  pose proof (wf_corpus_keys _ Hwf) as Hnd.
  assert (Hks : ks <> [])
    by (subst ks; destruct corpus; [congruence|discriminate]).
  induction i as [|i IH]; intros f visited links g Hl Hincl.
  - exists f, []. simpl. rewrite app_nil_r.
    repeat split; auto; [intros x [] | intros k _; ring].
  - simpl. rewrite keys_tab, values_tab.
    destruct (choices_in R HR ks (map (transition_prob corpus links d) ks) g)
      as (x & g' & Hx & Hin); auto.
    { apply length_map. }
    { now apply transition_prob_mass. }
    rewrite Hx. simpl. rewrite getitem_tab by assumption. simpl.
    rewrite dict_set_tab by assumption.
    destruct (transition_model_total corpus x d Hwf Hclosed Hin)
      as (links' & _ & Hl' & Hincl' & Htm).
    rewrite Htm. simpl.
    destruct (IH (upd f x (f x + share)) (visited ++ [x]) links' g' Hl' Hincl')
      as (f' & drawn & Hrun & Hlen & Hdrawn & Hf').
    rewrite <- app_assoc in Hrun. exists f', (x :: drawn).
    split; [exact Hrun|]. split; [simpl; now rewrite Hlen|].
    split.
    + intros y [<-|Hy]; auto.
    + intros k Hk. rewrite Hf' by assumption. unfold upd.
      destruct (string_dec x k) as [->|Hne'].
      * rewrite String.eqb_refl, count_occ_cons_eq by reflexivity.
        rewrite Nat2Z.inj_succ, <- Z.add_1_r, inject_Z_plus. ring.
      * rewrite count_occ_cons_neq by assumption.
        destruct (String.eqb_spec x k); [congruence | ring].
Qed.
End SamplingProperties.

Lemma pick_In x : forall pop w acc last,
  pick x acc pop w last = last \/ In (pick x acc pop w last) pop.
Proof.
  induction pop as [|p pop IH]; intros w acc last; simpl; [now left|].
  destruct w as [|wi w]; [now left|].
  destruct (Qltb x (acc + wi)); [right; now left|].
  destruct (IH w (acc + wi) p) as [->|H]; right; auto.
Qed.

Lemma replay_spec : RandomSpec replay.
Proof.
  split; simpl.
  - intros [|p0 pop] g Hne; [congruence|]. unfold replay_choice.
    destruct (draw g) as [u g']. do 2 eexists. split; [reflexivity|].
    set (l := p0 :: pop). set (i := Z.to_nat _).
    destruct (Nat.lt_ge_cases i (List.length l)) as [Hi|Hi].
    + now apply nth_In.
    + rewrite nth_overflow by assumption.
      destruct (exists_last (l := l)) as (l' & a & Hl); [discriminate|].
      rewrite Hl, last_last. apply in_or_app. right. now left.
  - intros [|p0 pop] w g Hne Hlen Hsum; [congruence|]. unfold replay_choices.
    rewrite Hlen, Nat.eqb_refl. simpl negb. cbv iota.
    destruct (Qle_bool (Qsum w) 0) eqn:Hle.
    { apply Qle_bool_iff in Hle. lra. }
    destruct (draw g) as [u g']. do 2 eexists. split; [reflexivity|].
    destruct (pick_In (u * Qsum w) (p0 :: pop) w 0 p0) as [->|H]; auto.
    now left.
Qed.

(** C8: [sample_pagerank] takes [n] samples, each of which raises the
    counter of exactly one page, the page just drawn, by [1/n].  With
    [visited] the log of the pages so counted, in order: the log has
    [n] entries, all pages of the corpus; the value returned for a page
    is its number of entries in the log over [n]; and the returned
    values sum to exactly 1. *)
Theorem sample_pagerank_sums_to_one (R : Random) (corpus : Corpus) (d : Q)
  (n : nat) (g : rng R) :
  RandomSpec R ->
  wf_corpus corpus = true -> links_closed corpus = true -> corpus <> [] ->
  0 < d < 1 -> (1 <= n)%nat ->
  exists table visited,
    sample_pagerank_log R corpus d n g = Ok (table, visited) /\
    sample_pagerank R corpus d n g = Ok table /\
    keys table = keys corpus /\
    List.length visited = n /\
    incl visited (keys corpus) /\
    (forall k, In k (keys corpus) ->
       exists p, dict_get table k = Some p /\
                 p == inject_Z (Z.of_nat (count_occ string_dec visited k))
                      / inject_Z (Z.of_nat n)) /\
    Qsum (values table) == 1.
Proof.
  intros HR Hwf Hcl Hne Hd Hn.
  pose proof (wf_corpus_keys _ Hwf) as Hnd.
  assert (Hks : keys corpus <> []) by (destruct corpus; [congruence|discriminate]).
  assert (HnQ : 0 < inject_Z (Z.of_nat n)).
  { change 0 with (inject_Z 0). rewrite <- Zlt_Qlt. lia. }
  assert (Hlog : exists f drawn first,
            sample_pagerank_log R corpus d n g
            = Ok (tab (keys corpus) f, first :: drawn) /\
            List.length (first :: drawn) = n /\
            incl (first :: drawn) (keys corpus) /\
            forall k, In k (keys corpus) ->
              f k == inject_Z (Z.of_nat (count_occ string_dec (first :: drawn) k))
                     * (1 / inject_Z (Z.of_nat n))).
  { unfold sample_pagerank_log. rewrite fill_tab by assumption.
    destruct (choice_in R HR (keys corpus) g Hks) as (first & g' & Hc & Hin).
    rewrite Hc. simpl.
    destruct (Nat.eqb_spec n 0) as [->|_]; [lia|]. simpl.
    rewrite dict_set_tab by assumption.
    destruct (transition_model_total corpus first d Hwf Hcl Hin)
      as (links & _ & Hl & Hincl & Htm).
    rewrite Htm. simpl.
    destruct (sample_loop_log_counts R HR corpus d n Hwf Hcl Hne (proj2 Hd)
                (n - 1) (upd (fun _ => 0) first (1 / inject_Z (Z.of_nat n)))
                [first] links g' Hl Hincl)
      as (f' & drawn & Hrun & Hlen & Hdrawn & Hf').
    exists f', drawn, first. split; [exact Hrun|]. split; [simpl; lia|].
    split; [intros y [<-|Hy]; auto|].
    intros k Hk. rewrite Hf' by assumption. unfold upd. simpl count_occ.
    destruct (string_dec first k) as [->|Hne'].
    - rewrite String.eqb_refl, Nat2Z.inj_succ, <- Z.add_1_r, inject_Z_plus.
      ring.
    - destruct (String.eqb_spec first k); [congruence | ring]. }
  destruct Hlog as (f & drawn & first & Hrun & Hlen & Hincl & Hf).
  exists (tab (keys corpus) f), (first :: drawn).
  split; [exact Hrun|].
  split; [now rewrite sample_pagerank_log_erase, Hrun|].
  rewrite keys_tab, values_tab. repeat split; auto.
  - intros k Hk. rewrite dict_get_tab by assumption. eexists. split; eauto.
    rewrite Hf by assumption. field. lra.
  - rewrite (Qsum_map_ext f _ _ Hf), Qsum_counts.
    rewrite count_occ_total by assumption. rewrite Hlen. field. lra.
Qed.

Lemma sample_pagerank_sums_to_one_witness :
  exists table visited,
    sample_pagerank_log replay sink_corpus (85 # 100) 4
      [1 # 2; 1 # 10; 9 # 10; 1 # 3] = Ok (table, visited) /\
    sample_pagerank replay sink_corpus (85 # 100) 4
      [1 # 2; 1 # 10; 9 # 10; 1 # 3] = Ok table /\
    keys table = keys sink_corpus /\
    List.length visited = 4%nat /\
    incl visited (keys sink_corpus) /\
    (forall k, In k (keys sink_corpus) ->
       exists p, dict_get table k = Some p /\
                 p == inject_Z (Z.of_nat (count_occ string_dec visited k))
                      / inject_Z (Z.of_nat 4)) /\
    Qsum (values table) == 1.
Proof.
  apply (sample_pagerank_sums_to_one replay sink_corpus (85 # 100) 4
           [1 # 2; 1 # 10; 9 # 10; 1 # 3] replay_spec).
  - reflexivity.
  - reflexivity.
  - discriminate.
  - split; reflexivity.
  - lia.
Defined.

(** ** iterate_pagerank: one round, as a function on tables *)

Lemma incoming_entries corpus ks (r : string -> Q) key : forall es sigma,
  NoDup (keys corpus) -> incl es corpus -> incl (keys corpus) ks ->
  for_each (fun sigma page =>
              links <- getitem corpus page ;;
              if mem key links then
                r' <- getitem (tab ks r) page ;;
                Ok (sigma + r' / len links)
              else Ok sigma)
    (keys es) sigma
  = Ok (fold_left (fun sigma e =>
                     if mem key (snd e) then sigma + r (fst e) / len (snd e)
                     else sigma) es sigma).
Proof.
  induction es as [|[page links] es IH]; intros sigma Hnd Hes Hks; simpl;
    [reflexivity|].
  rewrite (getitem_entry corpus page links) by (auto using in_eq). simpl.
  assert (Hpage : In page ks).
  { apply Hks. change page with (fst (page, links)).
    apply in_map, Hes, in_eq. }
  assert (Hes' : incl es corpus) by (intros x Hx; apply Hes; now right).
  destruct (mem key links).
  - rewrite getitem_tab by assumption. simpl. now apply IH.
  - now apply IH.
Qed.

Lemma incoming_tab corpus (r : string -> Q) key :
  NoDup (keys corpus) ->
  incoming corpus (tab (keys corpus) r) key = Ok (sigma_of corpus r key).
Proof.
  intros Hnd. unfold incoming, sigma_of.
  apply incoming_entries; auto using incl_refl.
Qed.

Lemma update_rank_tab corpus d (r : string -> Q) count key :
  NoDup (keys corpus) -> In key (keys corpus) ->
  update_rank corpus d (tab (keys corpus) r, count) key
  = Ok (tab (keys corpus) (upd r key (new_rank corpus d r key)),
        if Qltb (Qabs (r key - new_rank corpus d r key)) threshold
        then S count else count).
Proof.
  intros Hnd Hin. unfold update_rank.
  rewrite incoming_tab by assumption. simpl.
  rewrite getitem_tab by assumption. simpl.
  rewrite dict_set_tab by assumption. reflexivity.
Qed.

Lemma for_each_update_rank corpus d : forall todo (r : string -> Q) count,
  NoDup (keys corpus) -> incl todo (keys corpus) ->
  for_each (update_rank corpus d) todo (tab (keys corpus) r, count)
  = Ok (tab (keys corpus) (sweep corpus d todo r),
        (count + hits corpus d todo r)%nat).
Proof.
  induction todo as [|k todo IH]; intros r count Hnd Hincl; cbn [for_each hits sweep].
  - now rewrite Nat.add_0_r.
  - rewrite update_rank_tab by (auto using in_eq). cbn [bind].
    rewrite IH by (auto; intros x Hx; apply Hincl; now right).
    do 2 f_equal.
    destruct (Qltb (Qabs (r k - new_rank corpus d r k)) threshold); lia.
Qed.

Lemma round_tab corpus d (r : string -> Q) :
  NoDup (keys corpus) ->
  round corpus d (tab (keys corpus) r)
  = Ok (tab (keys corpus) (sweep corpus d (keys corpus) r),
        hits corpus d (keys corpus) r).
Proof.
  intros Hnd. unfold round.
  now rewrite for_each_update_rank by (auto using incl_refl).
Qed.

Lemma initial_ranks_tab corpus :
  NoDup (keys corpus) ->
  initial_ranks corpus = tab (keys corpus) (fun _ => 1 / len corpus).
Proof.
  intros Hnd. unfold initial_ranks. rewrite fill_tab by assumption.
  rewrite assign_links by (auto using incl_refl).
  apply tab_ext. intros k Hk. apply mem_In in Hk. now rewrite Hk.
Qed.

Lemma iterate_loop_tab corpus d fuel (r : string -> Q) :
  NoDup (keys corpus) ->
  iterate_loop (S fuel) corpus d (tab (keys corpus) r)
  = if Nat.eqb (hits corpus d (keys corpus) r) (List.length corpus)
    then Some (Ok (tab (keys corpus) (sweep corpus d (keys corpus) r)))
    else iterate_loop fuel corpus d
           (tab (keys corpus) (sweep corpus d (keys corpus) r)).
Proof.
  intros Hnd. simpl. now rewrite round_tab.
Qed.

(** A key that is not processed keeps its value. *)
Lemma sweep_untouched corpus d k : forall todo r,
  ~ In k todo -> sweep corpus d todo r k = r k.
Proof.
  induction todo as [|x todo IH]; intros r Hk; simpl; [reflexivity|].
  rewrite IH by (intros H; apply Hk; now right). unfold upd.
  destruct (String.eqb_spec x k) as [->|_]; [|reflexivity].
  exfalso. apply Hk. now left.
Qed.

(** In-place update: the value written for [k] is computed from the
    table as it stands when [k] is reached, with the keys before [k]
    already rewritten in this round. *)
Lemma sweep_at corpus d k : forall pre post r,
  ~ In k post ->
  sweep corpus d (pre ++ k :: post) r k
  = new_rank corpus d (sweep corpus d pre r) k.
Proof.
  induction pre as [|x pre IH]; intros post r Hk; simpl.
  - rewrite sweep_untouched by assumption. unfold upd.
    now rewrite String.eqb_refl.
  - now apply IH.
Qed.

Lemma sweep_app corpus d : forall pre post r,
  sweep corpus d (pre ++ post) r = sweep corpus d post (sweep corpus d pre r).
Proof.
  induction pre as [|x pre IH]; intros post r; simpl; [reflexivity|].
  apply IH.
Qed.

Lemma Qltb_lt a b : Qltb a b = true <-> a < b.
Proof.
  unfold Qltb. rewrite negb_true_iff.
  destruct (Qle_bool b a) eqn:H.
  - apply Qle_bool_iff in H. split; [discriminate | lra].
  - split; [|reflexivity]. intros _. apply Qnot_le_lt. intros Hle.
    apply Qle_bool_iff in Hle. congruence.
Qed.

Lemma hits_le corpus d : forall todo r,
  (hits corpus d todo r <= List.length todo)%nat.
Proof.
  induction todo as [|k todo IH]; intros r; simpl; [lia|].
  specialize (IH (upd r k (new_rank corpus d r k))).
  destruct (Qltb _ _); lia.
Qed.

(** [count == N] holds after a round exactly when every key changed by
    less than the threshold in that round. *)
Lemma hits_full corpus d : forall todo r,
  NoDup todo ->
  hits corpus d todo r = List.length todo <->
  forall k, In k todo ->
    Qabs (r k - sweep corpus d todo r k) < threshold.
Proof.
  induction todo as [|k todo IH]; intros r Hnd.
  - simpl. split; [tauto | reflexivity].
  - inversion Hnd as [|? ? Hk Hnd']; subst. cbn [hits sweep List.length].
    set (r1 := upd r k (new_rank corpus d r k)).
    assert (Hr1k : sweep corpus d todo r1 k = new_rank corpus d r k).
    { rewrite sweep_untouched by assumption. unfold r1, upd.
      now rewrite String.eqb_refl. }
    assert (Hr1 : forall j, In j todo -> r1 j = r j).
    { intros j Hj. unfold r1, upd.
      destruct (String.eqb_spec k j); congruence. }
    pose proof (hits_le corpus d todo r1) as Hle.
    specialize (IH r1 Hnd'). split.
    + intros H j [<-|Hj].
      * rewrite Hr1k. apply Qltb_lt.
        destruct (Qltb _ _); [reflexivity | lia].
      * rewrite <- Hr1 by assumption. apply IH; [|assumption].
        destruct (Qltb _ _); lia.
    + intros H. assert (Hk' := H k (or_introl eq_refl)).
      rewrite Hr1k in Hk'. apply Qltb_lt in Hk'. rewrite Hk'.
      cbn [Nat.add]. f_equal. apply IH. intros j Hj. rewrite Hr1 by assumption.
      apply H. now right.
Qed.

Lemma changes_below_tab eps ks (r r' : string -> Q) :
  changes_below eps (tab ks r) (tab ks r') = true <->
  forall k, In k ks -> Qabs (r k - r' k) < eps.
Proof.
  unfold changes_below. rewrite forallb_forall. split.
  - intros H k Hk. specialize (H (k, r k)). simpl in H.
    rewrite dict_get_tab in H by assumption. apply Qltb_lt, H.
    unfold tab. now apply (in_map (fun k => (k, r k))).
  - intros H kv Hkv. unfold tab in Hkv. apply in_map_iff in Hkv.
    destruct Hkv as (k & <- & Hk). simpl.
    rewrite dict_get_tab by assumption. now apply Qltb_lt, H.
Qed.

(** ** iterate_pagerank: sinks *)

(** The rank of a page without links is never read: changing it leaves
    every [sigma] as it was. *)
Lemma sink_rank_unread corpus (r : string -> Q) q v key :
  NoDup (keys corpus) -> getitem corpus q = Ok [] ->
  sigma_of corpus (upd r q v) key = sigma_of corpus r key.
Proof.
  intros Hnd Hq. unfold sigma_of. generalize 0 as sigma.
  assert (H : incl corpus corpus) by apply incl_refl. revert H.
  generalize corpus at 1 3 4 as es.
  induction es as [|[page links] es IH]; intros Hes sigma; simpl;
    [reflexivity|].
  assert (Hes' : incl es corpus) by (intros x Hx; apply Hes; now right).
  destruct (mem key links) eqn:Hmem; [|now apply IH].
  assert (Hpage : upd r q v page = r page).
  { unfold upd. destruct (String.eqb_spec q page) as [->|_]; [|reflexivity].
    rewrite (getitem_entry corpus page links) in Hq by (auto using in_eq).
    inversion Hq; subst. discriminate Hmem. }
  rewrite Hpage. now apply IH.
Qed.

(** C3, on the three-page scenario (B is a sink), first round: the sum
    for A is the share of C alone, 1/3; the rank of B adds nothing,
    where the claim adds [oldRank[B]/N = 1/9]; and after the round the
    table sums to 43/60, so rank mass has been lost. *)
Theorem iterate_sink_mass_lost :
  on_result Qred (incoming sink_corpus (initial_ranks sink_corpus) "A")
  = Ok (1 # 3)
  /\ ~ (1 # 3) == (1 # 3) + (1 # 3) / len sink_corpus
  /\ on_result (fun st => Qred (Qsum (values (fst st))))
       (round sink_corpus (85 # 100) (initial_ranks sink_corpus))
     = Ok (43 # 60).
Proof.
  split; [vm_compute; reflexivity|]. split; [discriminate|].
  vm_compute. reflexivity.
Qed.

(** C4, on the three-page scenario: the loop ends after eight rounds
    and the returned ranks sum to less than 0.37, not to 1 within 1e-6.
    Without any sink the sum is off as well: on the hub it is 1489/1200
    after the first round and more than 1.0018 on return. *)
Theorem iterate_pagerank_sum_not_one :
  (exists table,
     iterate_pagerank 8 sink_corpus (85 # 100) = Some (Ok table) /\
     keys table = keys sink_corpus /\
     Qsum (values table) < 37 # 100 /\
     ~ Qabs (Qsum (values table) - 1) <= 1 # 1000000)
  /\ on_result (fun st => Qred (Qsum (values (fst st))))
       (round hub_corpus (85 # 100) (initial_ranks hub_corpus))
     = Ok (1489 # 1200)
  /\ (exists table,
        iterate_pagerank 16 hub_corpus (85 # 100) = Some (Ok table) /\
        10018 # 10000 < Qsum (values table)).
Proof.
  split; [|split].
  - eexists. split; [vm_compute; reflexivity|].
    split; [reflexivity|]. split; [reflexivity|].
    vm_compute. intros H. now apply H.
  - vm_compute. reflexivity.
  - eexists. split; [vm_compute; reflexivity|]. reflexivity.
Qed.

(** ** iterate_pagerank: in-place update *)

(** C5, on the hub (no page without links): a round does not read the
    previous round's table only.  In the first round B is given
    0.05 + 0.85 * (new rank of A), not 0.05 + 0.85 * 1/3.  As a result
    the same graph with its pages listed in another order returns
    another rank for A, in binary64 (0.4874... against 0.4856...) as in
    exact arithmetic, and the ranks returned do not sum to 1, which the
    docstring of [iterate_pagerank] says they should. *)
Theorem iterate_reads_updated_ranks :
  ~ reads_previous_round_only hub_corpus (85 # 100) (initial_ranks hub_corpus)
  /\ Permutation hub_corpus hub_corpus_reordered
  /\ Generic.iterate_pagerank binary64 30 hub_corpus damping_085
     = Some (Ok [("A"%string, 0x1.f32deba32226fp-2%float);
                 ("B"%string, 0x1.db80a1e4436dep-2%float);
                 ("C"%string, 0x1.999999999999bp-5%float)])
  /\ Generic.iterate_pagerank binary64 30 hub_corpus_reordered damping_085
     = Some (Ok [("C"%string, 0x1.999999999999bp-5%float);
                 ("B"%string, 0x1.d99ee129aaa5ap-2%float);
                 ("A"%string, 0x1.f14c2ae8895ebp-2%float)])
  /\ exists table table' a a',
       iterate_pagerank 16 hub_corpus (85 # 100) = Some (Ok table) /\
       iterate_pagerank 16 hub_corpus_reordered (85 # 100) = Some (Ok table') /\
       dict_get table "A" = Some a /\ dict_get table' "A" = Some a' /\
       ~ a == a' /\ ~ Qsum (values table) == 1.
Proof.
  split; [|split; [|split; [|split]]].
  - intros (table & count & Hround & Hall).
    destruct (Hall "B"%string) as (sigma & v & Hs & Hv & Heq).
    { simpl. auto. }
    vm_compute in Hround. inversion Hround; subst. clear Hround.
    vm_compute in Hs. inversion Hs; subst. clear Hs.
    vm_compute in Hv. inversion Hv; subst. clear Hv.
    vm_compute in Heq. discriminate Heq.
  - unfold hub_corpus, hub_corpus_reordered.
    eapply perm_trans; [apply perm_swap|].
    eapply perm_trans; [apply perm_skip, perm_swap|]. apply perm_swap.
  - vm_compute. reflexivity.
  - vm_compute. reflexivity.
  - do 4 eexists. split; [vm_compute; reflexivity|].
    split; [vm_compute; reflexivity|].
    split; [reflexivity|]. split; [reflexivity|].
    split; vm_compute; discriminate.
Qed.

(** What a round does instead: it rewrites the table in place, page
    by page in corpus order.  When page [k] is reached the live table already
    holds this round's values for the pages before [k] and still holds
    the previous round's values for [k] and the pages after it; the new
    value of [k] is the update rule read off that live table. *)
Theorem round_updates_in_place corpus d (r : string -> Q) pre k post :
  wf_corpus corpus = true -> keys corpus = pre ++ k :: post ->
  exists table count live sigma,
    round corpus d (tab (keys corpus) r) = Ok (table, count) /\
    keys live = keys corpus /\
    (forall j, In j pre -> dict_get live j = dict_get table j) /\
    (forall j, ~ In j pre ->
       dict_get live j = dict_get (tab (keys corpus) r) j) /\
    incoming corpus live k = Ok sigma /\
    dict_get table k = Some ((1 - d) / len corpus + d * sigma).
Proof.
  intros Hwf Hks. pose proof (wf_corpus_keys _ Hwf) as Hnd.
  assert (Hnd' : NoDup (pre ++ k :: post)) by now rewrite <- Hks.
  assert (Hk : In k (keys corpus)).
  { rewrite Hks. apply in_or_app. right. now left. }
  exists (tab (keys corpus) (sweep corpus d (keys corpus) r)),
    (hits corpus d (keys corpus) r),
    (tab (keys corpus) (sweep corpus d pre r)),
    (sigma_of corpus (sweep corpus d pre r) k).
  split; [now apply round_tab|]. split; [apply keys_tab|].
  split; [|split; [|split]].
  - intros j Hj.
    assert (In j (keys corpus)) by (rewrite Hks; apply in_or_app; now left).
    rewrite !dict_get_tab by assumption. f_equal.
    rewrite Hks, sweep_app. symmetry. apply sweep_untouched.
    intros Hin. revert Hin Hj. clear - Hnd'. intros Hin Hj.
    apply NoDup_app_remove_l in Hnd' as Hpost.
    induction pre as [|x pre IH]; [destruct Hj|].
    simpl in Hnd'. inversion Hnd' as [|? ? Hx Hnd'']; subst.
    destruct Hj as [->|Hj]; [|now apply IH].
    apply Hx. apply in_or_app. now right.
  - intros j Hj. destruct (in_dec string_dec j (keys corpus)) as [Hin|Hout].
    + rewrite !dict_get_tab by assumption. f_equal.
      now apply sweep_untouched.
    + now rewrite !dict_get_tab_None.
  - now apply incoming_tab.
  - rewrite dict_get_tab by assumption. f_equal.
    rewrite Hks. apply sweep_at.
    apply NoDup_remove_2 in Hnd'. intros Hin. apply Hnd'.
    apply in_or_app. now right.
Qed.

Lemma round_updates_in_place_witness :
  exists table count live sigma,
    round hub_corpus (85 # 100) (tab (keys hub_corpus) (fun _ => 1 # 3))
    = Ok (table, count) /\
    keys live = keys hub_corpus /\
    (forall j, In j ["A"]%string -> dict_get live j = dict_get table j) /\
    (forall j, ~ In j ["A"]%string ->
       dict_get live j
       = dict_get (tab (keys hub_corpus) (fun _ => 1 # 3)) j) /\
    incoming hub_corpus live "B" = Ok sigma /\
    dict_get table "B"
    = Some ((1 - (85 # 100)) / len hub_corpus + (85 # 100) * sigma).
Proof.
  apply (round_updates_in_place hub_corpus (85 # 100) (fun _ => 1 # 3)
           ["A"]%string "B"%string ["C"]%string).
  - reflexivity.
  - reflexivity.
Defined.

(** ** iterate_pagerank: convergence *)

Lemma weight_nonneg k e : 0 <= weight k e.
Proof.
  unfold weight. destruct (mem k (snd e)) eqn:Hmem; [|lra].
  assert (H : 0 < len (snd e)).
  { apply len_pos. intros Heq. rewrite Heq in Hmem. discriminate. }
  apply Qlt_le_weak. unfold Qdiv. rewrite Qmult_1_l.
  now apply Qinv_lt_0_compat.
Qed.

(** What the pages of [rot] together receive from [e]: at most all of
    it. *)
Lemma weight_column (rot : Corpus) e :
  NoDup (keys rot) ->
  Qsum (map (fun e' => weight (fst e') e) rot) <= 1.
Proof.
  intros Hnd.
  assert (Heq : map (fun e' => weight (fst e') e) rot
                = map (fun k => if mem k (snd e) then 1 / len (snd e) else 0)
                    (keys rot)).
  { unfold keys. now rewrite map_map. }
  rewrite Heq, Qsum_indicator_filter.
  pose proof (filter_mem_length_le (snd e) (keys rot) Hnd) as Hle.
  revert Hle. generalize (filter (fun k => mem k (snd e)) (keys rot)) as m.
  intros m Hle. destruct (snd e) as [|l ls].
  - assert (Hm : List.length m = O) by (simpl in Hle; lia).
    unfold len. rewrite Hm. vm_compute. discriminate.
  - assert (Hpos : 0 < len (l :: ls)) by (apply len_pos; discriminate).
    assert (Hlen : len m <= len (l :: ls)).
    { unfold len. rewrite <- Zle_Qle. lia. }
    setoid_replace (1 / len (l :: ls) * len m) with (len m / len (l :: ls))
      by (field; lra).
    apply Qle_shift_div_r; lra.
Qed.

Lemma weight_sum_nonneg e (rot : Corpus) :
  0 <= Qsum (map (fun e' => weight (fst e') e) rot).
Proof.
  apply Qsum_map_nonneg. intros x _. apply weight_nonneg.
Qed.

Lemma sigma_of_from (es : Corpus) (r : string -> Q) key : forall sigma,
  fold_left (fun sigma e =>
               if mem key (snd e) then sigma + r (fst e) / len (snd e)
               else sigma) es sigma
  == sigma + Qsum (map (fun e => weight key e * r (fst e)) es).
Proof.
  induction es as [|e es IH]; intros sigma; simpl; [ring|].
  rewrite IH. unfold weight at 2. destruct (mem key (snd e)).
  - unfold Qdiv. ring.
  - ring.
Qed.

Lemma sigma_of_sum corpus (r : string -> Q) key :
  sigma_of corpus r key
  == Qsum (map (fun e => weight key e * r (fst e)) corpus).
Proof.
  unfold sigma_of. rewrite sigma_of_from. ring.
Qed.

Lemma Qmult_le_nonneg_l x y z : 0 <= z -> x <= y -> z * x <= z * y.
Proof.
  intros Hz Hxy. rewrite !(Qmult_comm z). now apply Qmult_le_compat_r.
Qed.

Lemma Qabs_Qsum_le {A} (f : A -> Q) l :
  Qabs (Qsum (map f l)) <= Qsum (map (fun x => Qabs (f x)) l).
Proof.
  induction l as [|x l IH]; simpl.
  - apply Qle_refl.
  - eapply Qle_trans; [apply Qabs_triangle|]. lra.
Qed.

(** The update rule is affine in the table: two tables that differ by
    [b - a] get new ranks that differ by the damped, weighted sum of the
    differences. *)
Lemma new_rank_diff corpus d (a b : string -> Q) k :
  0 <= d ->
  Qabs (new_rank corpus d b k - new_rank corpus d a k)
  <= d * Qsum (map (fun e => weight k e * Qabs (b (fst e) - a (fst e)))
                 corpus).
Proof.
  intros Hd. unfold new_rank. rewrite !sigma_of_sum.
  setoid_replace ((1 - d) / len corpus
                  + d * Qsum (map (fun e => weight k e * b (fst e)) corpus)
                  - ((1 - d) / len corpus
                     + d * Qsum (map (fun e => weight k e * a (fst e)) corpus)))
    with (d * Qsum (map (fun e => weight k e * (b (fst e) - a (fst e)))
                      corpus)).
  - rewrite Qabs_Qmult, (Qabs_pos d) by assumption.
    apply Qmult_le_nonneg_l; [assumption|].
    eapply Qle_trans; [apply Qabs_Qsum_le|]. apply Qsum_map_le.
    intros e _. rewrite Qabs_Qmult, (Qabs_pos (weight k e)).
    + apply Qle_refl.
    + apply weight_nonneg.
  - assert (H : Qsum (map (fun e => weight k e * (b (fst e) - a (fst e))) corpus)
                == Qsum (map (fun e => weight k e * b (fst e)) corpus)
                   - Qsum (map (fun e => weight k e * a (fst e)) corpus)).
    { clear. induction corpus as [|e es IH]; simpl; [ring|]. rewrite IH. ring. }
    rewrite H. ring.
Qed.

Lemma gap_nonneg a b e : 0 <= gap a b e.
Proof.
  apply Qabs_nonneg.
Qed.

Lemma gap_ext (a b a' b' : string -> Q) e :
  a (fst e) = a' (fst e) -> b (fst e) = b' (fst e) -> gap a b e = gap a' b' e.
Proof.
  unfold gap. now intros -> ->.
Qed.

Lemma potential_ext d (a b a' b' : string -> Q) rot :
  (forall e, In e rot -> a (fst e) = a' (fst e) /\ b (fst e) = b' (fst e)) ->
  potential d a b rot = potential d a' b' rot.
Proof.
  induction rot as [|e rot IH]; intros H; simpl; [reflexivity|].
  destruct (H e (or_introl eq_refl)) as [Ha Hb].
  rewrite (gap_ext a b a' b' e Ha Hb), IH; [reflexivity|].
  intros x Hx. apply H. now right.
Qed.

(** Moving the processed entry to the end of the rotation. *)
Lemma potential_snoc d a b e : forall rest,
  potential d a b (rest ++ [e])
  == potential d a b rest
     - d * Qsum (map (fun e' => weight (fst e) e' * gap a b e') rest)
     + gap a b e.
Proof.
  induction rest as [|x rest IH]; simpl.
  - ring.
  - rewrite IH, map_app, Qsum_app. simpl. ring.
Qed.

Lemma potential_le_gaps d a b : forall rot,
  0 <= d -> potential d a b rot <= Qsum (map (gap a b) rot).
Proof.
  intros rot Hd. induction rot as [|e rot IH]; simpl; [lra|].
  pose proof (gap_nonneg a b e) as Hg.
  pose proof (weight_sum_nonneg e rot) as Hw.
  assert (0 <= gap a b e * (d * Qsum (map (fun e' => weight (fst e') e) rot))).
  { apply Qmult_le_0_compat; [assumption|].
    now apply Qmult_le_0_compat. }
  lra.
Qed.

Lemma potential_ge_gaps d a b : forall rot,
  0 <= d -> NoDup (keys rot) ->
  (1 - d) * Qsum (map (gap a b) rot) <= potential d a b rot.
Proof.
  intros rot Hd. induction rot as [|e rot IH]; intros Hnd; simpl; [lra|].
  inversion Hnd as [|? ? _ Hnd']; subst. specialize (IH Hnd').
  pose proof (gap_nonneg a b e) as Hg.
  pose proof (weight_column rot e Hnd') as Hw.
  assert (0 <= gap a b e
               * (d * (1 - Qsum (map (fun e' => weight (fst e') e) rot)))).
  { apply Qmult_le_0_compat; [assumption|].
    apply Qmult_le_0_compat; lra. }
  lra.
Qed.

Lemma potential_nonneg d a b rot :
  0 <= d < 1 -> NoDup (keys rot) -> 0 <= potential d a b rot.
Proof.
  intros [Hd Hd1] Hnd.
  eapply Qle_trans; [|now apply potential_ge_gaps].
  apply Qmult_le_0_compat; [lra|].
  apply Qsum_map_nonneg. intros e _. apply gap_nonneg.
Qed.

(** One key processed: the potential drops by at least [1 - d] times
    the gap that the key had. *)
Lemma potential_step d (a b : string -> Q) e rest va vb :
  0 <= d -> NoDup (keys (e :: rest)) ->
  Qabs (vb - va)
  <= d * Qsum (map (fun e' => weight (fst e) e' * gap a b e') (e :: rest)) ->
  potential d (upd a (fst e) va) (upd b (fst e) vb) (rest ++ [e])
  <= potential d a b (e :: rest) - (1 - d) * gap a b e.
Proof.
  intros Hd Hnd Hv. rewrite potential_snoc.
  inversion Hnd as [|? ? Hk Hnd']; subst.
  assert (Hrest : forall x, In x rest ->
            upd a (fst e) va (fst x) = a (fst x)
            /\ upd b (fst e) vb (fst x) = b (fst x)).
  { intros x Hx. unfold upd.
    destruct (String.eqb_spec (fst e) (fst x)) as [Heq|_]; [|now split].
    exfalso. apply Hk. rewrite Heq. now apply in_map. }
  rewrite (potential_ext d _ _ a b rest Hrest).
  assert (Hsum : Qsum (map (fun e' => weight (fst e) e'
                                      * gap (upd a (fst e) va)
                                          (upd b (fst e) vb) e') rest)
                 == Qsum (map (fun e' => weight (fst e) e' * gap a b e') rest)).
  { apply Qsum_map_ext. intros x Hx. destruct (Hrest x Hx) as [Ha Hb].
    now rewrite (gap_ext _ _ a b x Ha Hb). }
  rewrite Hsum.
  assert (Hnew : gap (upd a (fst e) va) (upd b (fst e) vb) e = Qabs (vb - va)).
  { unfold gap, upd. now rewrite String.eqb_refl. }
  rewrite Hnew. cbn [map Qsum] in Hv. cbn [potential].
  pose proof (gap_nonneg a b e) as Hg.
  pose proof (weight_column (e :: rest) e Hnd) as Hcol. cbn [map Qsum] in Hcol.
  assert (0 <= gap a b e
               * (d * (1 - (weight (fst e) e
                            + Qsum (map (fun e' => weight (fst e') e) rest))))).
  { apply Qmult_le_0_compat; [assumption|].
    apply Qmult_le_0_compat; lra. }
  lra.
Qed.

(** A part of a round, run on two tables side by side: after the keys
    of [pre] the potential has dropped by [1 - d] times the gaps those
    keys had. *)
Lemma potential_sweep corpus d : forall pre post (a b : string -> Q),
  0 <= d -> NoDup (keys (pre ++ post)) -> Permutation (pre ++ post) corpus ->
  potential d (sweep corpus d (keys pre) a) (sweep corpus d (keys pre) b)
    (post ++ pre)
  <= potential d a b (pre ++ post) - (1 - d) * Qsum (map (gap a b) pre).
Proof.
  induction pre as [|e pre IH]; intros post a b Hd Hnd Hperm.
  - simpl. rewrite app_nil_r. lra.
  - cbn [keys map sweep Qsum]. fold (keys pre).
    set (a1 := upd a (fst e) (new_rank corpus d a (fst e))).
    set (b1 := upd b (fst e) (new_rank corpus d b (fst e))).
    assert (Hrot : Permutation (e :: pre ++ post) (pre ++ post ++ [e])).
    { rewrite app_assoc. apply Permutation_cons_append. }
    assert (Hnd1 : NoDup (keys (pre ++ post ++ [e]))).
    { eapply Permutation_NoDup; [|exact Hnd].
      apply Permutation_map. exact Hrot. }
    assert (Hperm1 : Permutation (pre ++ post ++ [e]) corpus).
    { eapply perm_trans; [apply Permutation_sym, Hrot | exact Hperm]. }
    specialize (IH (post ++ [e]) a1 b1 Hd Hnd1 Hperm1).
    rewrite <- app_assoc in IH. cbn [app] in IH.
    assert (Hstep : potential d a1 b1 (pre ++ post ++ [e])
                    <= potential d a b (e :: pre ++ post)
                       - (1 - d) * gap a b e).
    { rewrite app_assoc. apply potential_step; [assumption | exact Hnd |].
      eapply Qle_trans; [now apply new_rank_diff|].
      apply Qmult_le_nonneg_l; [assumption|].
      apply Qle_lteq. right. apply Qsum_perm, Permutation_map.
      now apply Permutation_sym. }
    assert (Hgaps : Qsum (map (gap a1 b1) pre) == Qsum (map (gap a b) pre)).
    { apply Qsum_map_ext. intros x Hx.
      assert (Hne : fst e <> fst x).
      { intros Heq. cbn [app keys map] in Hnd. fold (keys (pre ++ post)) in Hnd.
        apply NoDup_cons_iff in Hnd. destruct Hnd as [Hk _]. apply Hk.
        rewrite Heq. apply in_map, in_or_app. now left. }
      rewrite (gap_ext a1 b1 a b x); [reflexivity| |];
        unfold a1, b1, upd;
        destruct (String.eqb_spec (fst e) (fst x)); congruence. }
    rewrite Hgaps in IH. cbn [app]. lra.
Qed.

(** A whole round is a contraction for the potential: it shrinks by the
    damping factor. *)
Lemma potential_round corpus d (a b : string -> Q) :
  0 <= d < 1 -> NoDup (keys corpus) ->
  potential d (sweep corpus d (keys corpus) a) (sweep corpus d (keys corpus) b)
    corpus
  <= d * potential d a b corpus.
Proof.
  intros [Hd Hd1] Hnd.
  pose proof (potential_sweep corpus d corpus [] a b Hd) as H.
  rewrite app_nil_r in H. cbn [app] in H.
  specialize (H Hnd (Permutation_refl _)).
  pose proof (potential_le_gaps d a b corpus Hd) as Hle.
  assert (0 <= (1 - d) * (Qsum (map (gap a b) corpus) - potential d a b corpus)).
  { apply Qmult_le_0_compat; lra. }
  lra.
Qed.

Lemma after_rounds_S corpus d t : forall r,
  after_rounds corpus d (S t) r
  = sweep corpus d (keys corpus) (after_rounds corpus d t r).
Proof.
  induction t as [|t IH]; intros r; [reflexivity|].
  change (after_rounds corpus d (S (S t)) r)
    with (after_rounds corpus d (S t) (sweep corpus d (keys corpus) r)).
  now rewrite IH.
Qed.

(** A non-negative sequence that shrinks by a factor [d < 1] at every
    step gets below any positive bound. *)
Lemma contraction_reaches (x : nat -> Q) d eps :
  0 <= d < 1 -> 0 < eps ->
  (forall t, 0 <= x t) -> (forall t, x (S t) <= d * x t) ->
  exists t, x t < eps.
Proof.
  intros [Hd Hd1] Heps Hpos Hstep.
  assert (Hbound : forall t, (1 + inject_Z (Z.of_nat t) * (1 - d)) * x t <= x O).
  { induction t as [|t IH].
    - change (inject_Z (Z.of_nat 0)) with 0. lra.
    - rewrite Nat2Z.inj_succ, <- Z.add_1_r, inject_Z_plus.
      set (n := inject_Z (Z.of_nat t)) in *.
      assert (Hn : 0 <= n).
      { unfold n. change 0 with (inject_Z 0). rewrite <- Zle_Qle. lia. }
      specialize (Hstep t). pose proof (Hpos t) as Hx.
      set (c := 1 + (n + inject_Z 1) * (1 - d)).
      assert (Hc : 0 <= c).
      { unfold c. change (inject_Z 1) with 1.
        assert (0 <= (n + 1) * (1 - d)) by (apply Qmult_le_0_compat; lra).
        lra. }
      apply (Qmult_le_nonneg_l _ _ c Hc) in Hstep.
      assert (Hcd : c * d <= 1 + n * (1 - d)).
      { unfold c. change (inject_Z 1) with 1.
        assert (0 <= (n + 1) * ((1 - d) * (1 - d))).
        { apply Qmult_le_0_compat; [lra|]. apply Qmult_le_0_compat; lra. }
        lra. }
      apply (Qmult_le_compat_r _ _ (x t) Hcd) in Hx.
      lra. }
  set (q := x O / ((1 - d) * eps)).
  exists (Z.to_nat (Qceiling q)).
  specialize (Hbound (Z.to_nat (Qceiling q))).
  set (n := inject_Z (Z.of_nat (Z.to_nat (Qceiling q)))) in *.
  assert (Hq : q <= n).
  { eapply Qle_trans; [apply Qle_ceiling|]. unfold n.
    rewrite <- Zle_Qle. lia. }
  assert (Hden : 0 < (1 - d) * eps) by (apply Qmult_lt_0_compat; lra).
  assert (Hx0 : x O <= n * ((1 - d) * eps)).
  { assert (Heq : x O == q * ((1 - d) * eps)) by (unfold q; field; lra).
    rewrite Heq. apply Qmult_le_compat_r; [exact Hq | lra]. }
  apply Qnot_le_lt. intros Hle.
  assert (Hn : 0 <= n * (1 - d)).
  { apply Qmult_le_0_compat; [|lra].
    unfold n. change 0 with (inject_Z 0). rewrite <- Zle_Qle. lia. }
  assert (Hmul : (1 + n * (1 - d)) * eps
                 <= (1 + n * (1 - d)) * x (Z.to_nat (Qceiling q))).
  { apply Qmult_le_nonneg_l; lra. }
  lra.
Qed.

Lemma Qsum_member_le {A} (f : A -> Q) l x :
  (forall y, In y l -> 0 <= f y) -> In x l -> f x <= Qsum (map f l).
Proof.
  induction l as [|y l IH]; intros Hpos Hin; [destruct Hin|].
  simpl. pose proof (Hpos y (or_introl eq_refl)) as Hy.
  assert (Hl : 0 <= Qsum (map f l)).
  { apply Qsum_map_nonneg. intros z Hz. apply Hpos. now right. }
  destruct Hin as [->|Hin]; [lra|].
  specialize (IH (fun z Hz => Hpos z (or_intror Hz)) Hin). lra.
Qed.

(** Some round passes the threshold test at every key. *)
Lemma some_round_converges corpus d (r : string -> Q) :
  0 <= d < 1 -> NoDup (keys corpus) ->
  exists t,
    hits corpus d (keys corpus) (after_rounds corpus d t r)
    = List.length (keys corpus).
Proof.
  intros Hd Hnd.
  set (x := fun t => potential d (after_rounds corpus d t r)
                       (after_rounds corpus d (S t) r) corpus).
  destruct (contraction_reaches x d ((1 - d) * threshold) Hd) as [t Ht].
  - apply Qmult_lt_0_compat; [lra | reflexivity].
  - intros t. unfold x. now apply potential_nonneg.
  - intros t. unfold x. rewrite (after_rounds_S corpus d (S t)).
    rewrite (after_rounds_S corpus d t) at 1.
    now apply potential_round.
  - exists t. apply hits_full; [assumption|]. intros k Hk.
    unfold keys in Hk. apply in_map_iff in Hk. destruct Hk as (e & <- & He).
    rewrite Qabs_Qminus, <- after_rounds_S.
    change (gap (after_rounds corpus d t r) (after_rounds corpus d (S t) r) e
            < threshold).
    set (a := after_rounds corpus d t r) in *.
    set (b := after_rounds corpus d (S t) r) in *.
    pose proof (potential_ge_gaps d a b corpus (proj1 Hd) Hnd) as Hge.
    pose proof (Qsum_member_le (gap a b) corpus e
                  (fun y _ => gap_nonneg a b y) He) as Hmem.
    unfold x in Ht. fold a b in Ht.
    assert (H1 : (1 - d) * gap a b e <= (1 - d) * Qsum (map (gap a b) corpus)).
    { apply Qmult_le_nonneg_l; lra. }
    assert (H2 : (1 - d) * gap a b e < (1 - d) * threshold) by lra.
    apply Qmult_lt_l in H2; [exact H2 | lra].
Qed.

(** Once some round passes the test, enough passes end the loop, and
    the table returned is the one written by the first such round. *)
Lemma iterate_loop_ends corpus d : forall t (r : string -> Q),
  NoDup (keys corpus) ->
  hits corpus d (keys corpus) (after_rounds corpus d t r)
  = List.length (keys corpus) ->
  exists t',
    (t' <= t)%nat /\
    hits corpus d (keys corpus) (after_rounds corpus d t' r)
    = List.length (keys corpus) /\
    iterate_loop (S t) corpus d (tab (keys corpus) r)
    = Some (Ok (tab (keys corpus) (after_rounds corpus d (S t') r))).
Proof.
  assert (Hlen : List.length corpus = List.length (keys corpus))
    by (symmetry; apply length_map).
  induction t as [|t IH]; intros r Hnd Hhit.
  - exists O. simpl in Hhit. rewrite iterate_loop_tab by assumption.
    rewrite Hlen, Hhit, Nat.eqb_refl. repeat split; auto.
  - rewrite iterate_loop_tab by assumption. rewrite Hlen.
    destruct (Nat.eqb_spec (hits corpus d (keys corpus) r)
                (List.length (keys corpus))) as [Hnow|_].
    + exists O. repeat split; [lia | exact Hnow].
    + destruct (IH (sweep corpus d (keys corpus) r) Hnd Hhit)
        as (t' & Hle & Hhit' & Hrun).
      exists (S t'). repeat split; [lia | exact Hhit' | exact Hrun].
Qed.

Lemma iterate_loop_more corpus d x : forall fuel fuel' ranks,
  iterate_loop fuel corpus d ranks = Some x -> (fuel <= fuel')%nat ->
  iterate_loop fuel' corpus d ranks = Some x.
Proof.
  induction fuel as [|fuel IH]; intros fuel' ranks Hrun Hle; [discriminate|].
  destruct fuel' as [|fuel']; [lia|]. simpl in *.
  destruct (round corpus d ranks) as [[ranks' count]|e]; [|assumption].
  destruct (Nat.eqb count (List.length corpus)); [assumption|].
  apply IH; [assumption | lia].
Qed.

(** In exact arithmetic the convergence loop terminates.  For every
    well-formed corpus and every damping factor in (0,1) there is a
    number of rounds after which the exact reading of
    [iterate_pagerank] has returned a table over the pages of the
    corpus; the table was written by a round in which every rank
    changed by less than the threshold, and more fuel does not change
    it.  (The binary64 program can run forever, see below.) *)
Theorem iterate_pagerank_terminates corpus d :
  wf_corpus corpus = true -> 0 < d < 1 ->
  exists fuel table before,
    (forall fuel', (fuel <= fuel')%nat ->
       iterate_pagerank fuel' corpus d = Some (Ok table)) /\
    keys table = keys corpus /\
    round corpus d before = Ok (table, List.length corpus) /\
    changes_below threshold before table = true.
Proof.
  intros Hwf [Hd0 Hd1]. pose proof (wf_corpus_keys _ Hwf) as Hnd.
  assert (Hd : 0 <= d < 1) by lra.
  set (r0 := fun _ : string => 1 / len corpus).
  destruct (some_round_converges corpus d r0 Hd Hnd) as [t Ht].
  destruct (iterate_loop_ends corpus d t r0 Hnd Ht) as (t' & _ & Hhit & Hrun).
  exists (S t), (tab (keys corpus) (after_rounds corpus d (S t') r0)),
    (tab (keys corpus) (after_rounds corpus d t' r0)).
  split; [|split; [|split]].
  - intros fuel' Hle. unfold iterate_pagerank.
    rewrite initial_ranks_tab by assumption.
    now apply (iterate_loop_more corpus d _ (S t)).
  - apply keys_tab.
  - rewrite round_tab by assumption. rewrite after_rounds_S, Hhit.
    do 2 f_equal. apply length_map.
  - rewrite after_rounds_S. apply changes_below_tab.
    now apply hits_full.
Qed.

Lemma iterate_pagerank_terminates_witness :
  exists fuel table before,
    (forall fuel', (fuel <= fuel')%nat ->
       iterate_pagerank fuel' hub_corpus (85 # 100) = Some (Ok table)) /\
    keys table = keys hub_corpus /\
    round hub_corpus (85 # 100) before = Ok (table, List.length hub_corpus) /\
    changes_below threshold before table = true.
Proof.
  apply (iterate_pagerank_terminates hub_corpus (85 # 100)).
  - reflexivity.
  - split; reflexivity.
Defined.

(** ** iterate_pagerank: the threshold *)

Lemma rounds_tab corpus d : forall t (r : string -> Q),
  NoDup (keys corpus) ->
  rounds t corpus d (tab (keys corpus) r)
  = Ok (tab (keys corpus) (after_rounds corpus d t r)).
Proof.
  induction t as [|t IH]; intros r Hnd; simpl; [reflexivity|].
  rewrite round_tab by assumption. simpl. now apply IH.
Qed.

(** C9 as stated fails: [iterate_pagerank] takes the corpus and the
    damping factor only, and 0.001 is not the threshold in force.  On
    the three-page scenario every rank moves by less than 0.001 in
    round 7, yet seven rounds do not end the loop; it ends after
    round 8. *)
Lemma iterate_threshold_counterexample :
  ~ ends_once_below (1 # 1000) sink_corpus (85 # 100)
  /\ iterate_pagerank 7 sink_corpus (85 # 100) = None
  /\ exists table, iterate_pagerank 8 sink_corpus (85 # 100) = Some (Ok table).
Proof.
  split; [|split].
  - intros H.
    destruct (H 6%nat
                (match rounds 6 sink_corpus (85 # 100)
                         (initial_ranks sink_corpus) with
                 | Ok t => t | Raise _ => [] end)
                (match rounds 7 sink_corpus (85 # 100)
                         (initial_ranks sink_corpus) with
                 | Ok t => t | Raise _ => [] end))
      as [table Hrun].
    + vm_compute. reflexivity.
    + vm_compute. reflexivity.
    + vm_compute. reflexivity.
    + vm_compute in Hrun. discriminate Hrun.
  - vm_compute. reflexivity.
  - eexists. vm_compute. reflexivity.
Qed.

(** C9, amended: the only inputs are the corpus and the damping factor;
    the threshold is the constant 0.0005 inside the function.  The loop
    has ended once a round has moved every rank by less than 0.0005; a
    round ends the loop exactly when it does so, and otherwise the loop
    goes on from the rewritten table. *)
Theorem iterate_loop_threshold corpus d :
  wf_corpus corpus = true ->
  ends_once_below (5 # 10000) corpus d /\
  forall (r : string -> Q) fuel,
  exists table count,
    round corpus d (tab (keys corpus) r) = Ok (table, count) /\
    (count = List.length corpus <->
     changes_below (5 # 10000) (tab (keys corpus) r) table = true) /\
    iterate_loop (S fuel) corpus d (tab (keys corpus) r)
    = if changes_below (5 # 10000) (tab (keys corpus) r) table
      then Some (Ok table)
      else iterate_loop fuel corpus d table.
Proof.
  intros Hwf. pose proof (wf_corpus_keys _ Hwf) as Hnd.
  assert (Hiff : forall r : string -> Q,
            hits corpus d (keys corpus) r = List.length corpus <->
            changes_below (5 # 10000) (tab (keys corpus) r)
              (tab (keys corpus) (sweep corpus d (keys corpus) r)) = true).
  { intros r. rewrite changes_below_tab.
    replace (List.length corpus) with (List.length (keys corpus))
      by apply length_map.
    now apply hits_full. }
  split.
  - intros t before after Hb Ha Hcb.
    rewrite initial_ranks_tab in Hb, Ha by assumption.
    rewrite rounds_tab in Hb, Ha by assumption.
    assert (Hb' : before = tab (keys corpus)
                             (after_rounds corpus d t (fun _ => 1 / len corpus)))
      by congruence.
    assert (Ha' : after = tab (keys corpus)
                            (after_rounds corpus d (S t)
                               (fun _ => 1 / len corpus)))
      by congruence.
    subst before after. clear Hb Ha.
    rewrite after_rounds_S in Hcb. apply Hiff in Hcb.
    rewrite <- (length_map fst corpus) in Hcb. fold (keys corpus) in Hcb.
    destruct (iterate_loop_ends corpus d t _ Hnd Hcb) as (t' & _ & _ & Hrun).
    eexists. unfold iterate_pagerank.
    rewrite initial_ranks_tab by assumption. exact Hrun.
  - intros r fuel. do 2 eexists. split; [now apply round_tab|].
    split; [apply Hiff|].
    rewrite iterate_loop_tab by assumption. specialize (Hiff r).
    destruct (Nat.eqb_spec (hits corpus d (keys corpus) r)
                (List.length corpus)) as [Heq|Hneq].
    + apply Hiff in Heq. now rewrite Heq.
    + destruct (changes_below _ _ _); [|reflexivity].
      exfalso. apply Hneq, Hiff. reflexivity.
Qed.

Lemma iterate_loop_threshold_witness :
  ends_once_below (5 # 10000) hub_corpus (85 # 100) /\
  forall (r : string -> Q) fuel,
  exists table count,
    round hub_corpus (85 # 100) (tab (keys hub_corpus) r)
    = Ok (table, count) /\
    (count = List.length hub_corpus <->
     changes_below (5 # 10000) (tab (keys hub_corpus) r) table = true) /\
    iterate_loop (S fuel) hub_corpus (85 # 100) (tab (keys hub_corpus) r)
    = if changes_below (5 # 10000) (tab (keys hub_corpus) r) table
      then Some (Ok table)
      else iterate_loop fuel hub_corpus (85 # 100) table.
Proof.
  apply (iterate_loop_threshold hub_corpus (85 # 100)).
  reflexivity.
Defined.

(** ** crawl *)

Lemma endswith_spec s suffix :
  endswith s suffix = true <-> exists p, s = (p ++ suffix)%string.
Proof.
  induction s as [|a s IH]; cbn [endswith].
  - rewrite orb_false_r, String.eqb_eq. split.
    + intros <-. now exists EmptyString.
    + intros [[|b p] Hp]; simpl in Hp; [now subst | discriminate].
  - rewrite orb_true_iff, IH, String.eqb_eq. split.
    + intros [<-|[p ->]]; [now exists EmptyString | now exists (String a p)].
    + intros [[|b p] Hp]; simpl in Hp; [left; now subst|].
      right. exists p. now inversion Hp.
Qed.

Lemma dict_set_middle {V} (done : dict V) k v v' rest :
  ~ In k (keys done) ->
  dict_set (done ++ (k, v) :: rest) k v' = done ++ (k, v') :: rest.
Proof.
  induction done as [|[x w] done IH]; simpl; intros H.
  - now rewrite String.eqb_refl.
  - destruct (String.eqb_spec k x) as [->|_]; [tauto|].
    f_equal. apply IH. tauto.
Qed.

Lemma keys_app {V} (d d' : dict V) : keys (d ++ d') = keys d ++ keys d'.
Proof.
  apply map_app.
Qed.

(** Rewriting every value of a dictionary in a loop over its own keys,
    as the second loop of [crawl] does. *)
Lemma rewrite_values (h : list string -> list string -> list string) :
  forall (todo done : dict (list string)),
  NoDup (keys (done ++ todo)) ->
  for_each (fun pages filename =>
              links <- getitem pages filename ;;
              Ok (dict_set pages filename (h (keys pages) links)))
    (keys todo) (done ++ todo)
  = Ok (done ++ map (fun e => (fst e, h (keys (done ++ todo)) (snd e))) todo).
Proof.
  induction todo as [|[k v] todo IH]; intros done Hnd; simpl.
  - reflexivity.
  - rewrite (getitem_entry (done ++ (k, v) :: todo) k v Hnd)
      by (apply in_or_app; right; now left).
    simpl. rewrite dict_set_middle.
    + change (done ++ (k, h (keys (done ++ (k, v) :: todo)) v) :: todo)
        with (done ++ [(k, h (keys (done ++ (k, v) :: todo)) v)] ++ todo).
      rewrite app_assoc.
      assert (Hkeys : keys ((done ++ [(k, h (keys (done ++ (k, v) :: todo)) v)])
                            ++ todo)
                      = keys (done ++ (k, v) :: todo)).
      { rewrite !keys_app. simpl. now rewrite <- app_assoc. }
      rewrite IH by now rewrite Hkeys.
      rewrite Hkeys, <- app_assoc. reflexivity.
    + rewrite keys_app in Hnd. simpl in Hnd.
      apply NoDup_remove_2 in Hnd. intros Hin. apply Hnd.
      apply in_or_app. now left.
Qed.

Section CrawlProperties.
Variable findall : string -> list string.

(** What the first loop stores for a file. *)
Let own_links (file : string * string) : list string :=
  filter (fun link => negb (String.eqb link (fst file)))
    (set_of (findall (snd file))).

Lemma first_pass : forall (directory : list (string * string)) (pages : Corpus),
  NoDup (keys pages ++ map fst directory) ->
  fold_left (fun pages file =>
               if negb (endswith (fst file) ".html") then pages
               else
                 let links := findall (snd file) in
                 dict_set pages (fst file)
                   (filter (fun link => negb (String.eqb link (fst file)))
                      (set_of links)))
    directory pages
  = pages ++ map (fun file => (fst file, own_links file))
               (html_files directory).
Proof.
  induction directory as [|file directory IH]; intros pages Hnd; simpl.
  - now rewrite app_nil_r.
  - assert (Hfresh : ~ In (fst file) (keys pages)).
    { apply NoDup_remove_2 in Hnd. intros Hin. apply Hnd.
      apply in_or_app. now left. }
    assert (Hnd' : NoDup (keys pages ++ map fst directory))
      by (now apply NoDup_remove_1 in Hnd).
    destruct (endswith (fst file) ".html"); simpl.
    + rewrite dict_set_fresh by assumption. rewrite IH.
      * now rewrite <- app_assoc.
      * rewrite keys_app. simpl. rewrite <- app_assoc. exact Hnd.
    + now apply IH.
Qed.

(** [crawl] in closed form: one entry per [.html] file, in listing
    order; its links are the distinct links found in the file, the file
    itself and everything that is not a page left out. *)
Lemma crawl_closed_form directory :
  NoDup (map fst directory) ->
  crawl findall directory
  = Ok (map (fun file =>
               (fst file,
                filter (fun link => mem link (map fst (html_files directory)))
                  (own_links file)))
          (html_files directory)).
Proof.
  intros Hnd. unfold crawl.
  set (pages := map (fun file => (fst file, own_links file))
                  (html_files directory)).
  match goal with
  | |- context [fold_left ?step directory []] =>
      replace (fold_left step directory []) with pages
        by (symmetry; apply (first_pass directory [] Hnd))
  end.
  assert (Hkeys : keys pages = map fst (html_files directory)).
  { unfold pages, keys. rewrite map_map. reflexivity. }
  assert (Hndk : NoDup (keys pages)).
  { rewrite Hkeys. unfold html_files.
    clear - Hnd. induction directory as [|file directory IH]; simpl.
    - constructor.
    - inversion Hnd as [|? ? Hx Hnd']; subst.
      destruct (endswith (fst file) ".html"); simpl; [|now apply IH].
      constructor; [|now apply IH].
      intros Hin. apply Hx. apply in_map_iff in Hin.
      destruct Hin as (f & Hf & Hin). apply filter_In in Hin.
      rewrite <- Hf. apply in_map. tauto. }
  pose proof (rewrite_values (fun ks links => filter (fun link => mem link ks) links)
                pages [] Hndk) as H.
  cbn [app] in H. rewrite H, Hkeys. f_equal. unfold pages.
  rewrite map_map. reflexivity.
Qed.

Lemma html_files_names (directory : list (string * string)) :
  map fst (html_files directory)
  = filter (fun name => endswith name ".html") (map fst directory).
Proof.
  unfold html_files. induction directory as [|file directory IH]; simpl;
    [reflexivity|].
  destruct (endswith (fst file) ".html"); simpl; now rewrite IH.
Qed.

Lemma crawl_result directory :
  NoDup (map fst directory) ->
  exists corpus,
    crawl findall directory = Ok corpus /\
    keys corpus
    = filter (fun name => endswith name ".html") (map fst directory) /\
    corpus
    = map (fun file =>
             (fst file,
              filter (fun link => mem link (keys corpus)) (own_links file)))
        (html_files directory).
Proof.
  intros Hnd. eexists. split; [now apply crawl_closed_form|].
  assert (Hkeys : forall f : string * string -> list string,
            keys (map (fun file => (fst file, f file)) (html_files directory))
            = filter (fun name => endswith name ".html") (map fst directory)).
  { intros f. unfold keys. rewrite map_map. apply html_files_names. }
  rewrite Hkeys. split; [reflexivity|]. now rewrite html_files_names.
Qed.

(** X1: the pages [crawl] returns are the files of the listing whose
    name ends in [.html], in listing order; other files are skipped. *)
Theorem crawl_pages directory :
  NoDup (map fst directory) ->
  exists corpus,
    crawl findall directory = Ok corpus /\
    keys corpus
    = filter (fun name => endswith name ".html") (map fst directory) /\
    forall name, In name (keys corpus) <->
                 In name (map fst directory) /\
                 exists stem, name = (stem ++ ".html")%string.
Proof.
  intros Hnd.
  destruct (crawl_result directory Hnd) as (corpus & Hcrawl & Hkeys & _).
  exists corpus. split; [exact Hcrawl|]. split; [exact Hkeys|].
  intros name. now rewrite Hkeys, filter_In, endswith_spec.
Qed.

(** X2: the link set [crawl] stores for a page holds exactly the links
    found in its file that name another page of the corpus, each once. *)
Theorem crawl_links directory name contents :
  NoDup (map fst directory) ->
  In (name, contents) directory -> endswith name ".html" = true ->
  exists corpus links,
    crawl findall directory = Ok corpus /\
    getitem corpus name = Ok links /\
    NoDup links /\
    forall link, In link links <->
                 In link (findall contents) /\ link <> name /\
                 In link (keys corpus).
Proof.
  intros Hnd Hin Hhtml.
  destruct (crawl_result directory Hnd) as (corpus & Hcrawl & Hkeys & Hcorpus).
  assert (Hndk : NoDup (keys corpus)).
  { rewrite Hkeys. now apply NoDup_filter. }
  set (links := filter (fun link => mem link (keys corpus))
                  (own_links (name, contents))).
  assert (Hentry : In (name, links) corpus).
  { rewrite Hcorpus.
    apply (in_map (fun file => (fst file, filter _ (own_links file)))
             _ (name, contents)).
    unfold html_files. apply filter_In. now split. }
  exists corpus, links. split; [exact Hcrawl|].
  split; [now apply getitem_entry|]. split.
  - unfold links, own_links, set_of. do 2 apply NoDup_filter.
    apply NoDup_nodup.
  - intros link. unfold links, own_links, set_of.
    rewrite !filter_In, nodup_In, mem_In, negb_true_iff, String.eqb_neq.
    cbn [fst snd]. tauto.
Qed.

Lemma crawl_graph directory :
  NoDup (map fst directory) ->
  exists corpus,
    crawl findall directory = Ok corpus /\
    keys corpus
    = filter (fun name => endswith name ".html") (map fst directory) /\
    wf_corpus corpus = true /\
    links_closed corpus = true /\
    no_self_loops corpus = true.
Proof.
  intros Hnd.
  destruct (crawl_result directory Hnd) as (corpus & Hcrawl & Hkeys & Hcorpus).
  exists corpus. split; [exact Hcrawl|]. split; [exact Hkeys|].
  assert (Hentries : forall e, In e corpus ->
            exists file,
              e = (fst file,
                   filter (fun link => mem link (keys corpus))
                     (own_links file))).
  { intros e He. rewrite Hcorpus in He. apply in_map_iff in He.
    destruct He as (file & <- & _). now exists file. }
  split; [|split].
  - unfold wf_corpus. apply andb_true_iff. split.
    + apply nodupb_NoDup. rewrite Hkeys. now apply NoDup_filter.
    + apply forallb_forall. intros ls Hls. unfold values in Hls.
      apply in_map_iff in Hls. destruct Hls as (e & <- & He).
      destruct (Hentries e He) as (file & ->). cbn [snd].
      apply nodupb_NoDup. unfold own_links, set_of.
      do 2 apply NoDup_filter. apply NoDup_nodup.
  - unfold links_closed. apply forallb_forall. intros ls Hls.
    unfold values in Hls. apply in_map_iff in Hls.
    destruct Hls as (e & <- & He).
    destruct (Hentries e He) as (file & ->). cbn [snd].
    apply forallb_forall. intros link Hlink. apply filter_In in Hlink. tauto.
  - unfold no_self_loops. apply forallb_forall. intros e He.
    destruct (Hentries e He) as (file & ->). cbn [fst snd].
    apply negb_true_iff, mem_not_In. intros Hin.
    apply filter_In in Hin. destruct Hin as [Hin _].
    unfold own_links in Hin. apply filter_In in Hin. destruct Hin as [_ Hne].
    now rewrite String.eqb_refl in Hne.
Qed.

(** X3: the corpus [crawl] returns is a dictionary of sets that keeps
    the graph invariant: every link names a page of the corpus and no
    page links to itself. *)
Theorem crawl_invariant directory :
  NoDup (map fst directory) ->
  exists corpus,
    crawl findall directory = Ok corpus /\
    wf_corpus corpus = true /\
    links_closed corpus = true /\
    no_self_loops corpus = true.
Proof.
  intros Hnd.
  destruct (crawl_graph directory Hnd) as (corpus & Hcrawl & _ & Hinv).
  now exists corpus.
Qed.
End CrawlProperties.

Lemma crawl_pages_witness :
  exists corpus,
    crawl (fun contents => [contents])
      [("1.html", "2.html"); ("notes.txt", "1.html"); ("2.html", "2.html")]%string
    = Ok corpus /\
    keys corpus
    = filter (fun name => endswith name ".html")
        (map fst [("1.html", "2.html"); ("notes.txt", "1.html");
                  ("2.html", "2.html")]%string) /\
    forall name, In name (keys corpus) <->
                 In name (map fst [("1.html", "2.html"); ("notes.txt", "1.html");
                                   ("2.html", "2.html")]%string) /\
                 exists stem, name = (stem ++ ".html")%string.
Proof.
  apply (crawl_pages (fun contents => [contents])
           [("1.html", "2.html"); ("notes.txt", "1.html"); ("2.html", "2.html")]%string).
  apply nodupb_NoDup. reflexivity.
Defined.

Lemma crawl_links_witness :
  exists corpus links,
    crawl (fun contents => [contents])
      [("1.html", "2.html"); ("notes.txt", "1.html"); ("2.html", "2.html")]%string
    = Ok corpus /\
    getitem corpus "1.html" = Ok links /\
    NoDup links /\
    forall link, In link links <->
                 In link [("2.html")%string] /\ link <> "1.html"%string /\
                 In link (keys corpus).
Proof.
  apply (crawl_links (fun contents => [contents])
           [("1.html", "2.html"); ("notes.txt", "1.html"); ("2.html", "2.html")]%string
           "1.html" "2.html").
  - apply nodupb_NoDup. reflexivity.
  - simpl. auto.
  - reflexivity.
Defined.

Lemma crawl_invariant_witness :
  exists corpus,
    crawl (fun contents => [contents])
      [("1.html", "2.html"); ("notes.txt", "1.html"); ("2.html", "2.html")]%string
    = Ok corpus /\
    wf_corpus corpus = true /\
    links_closed corpus = true /\
    no_self_loops corpus = true.
Proof.
  apply (crawl_invariant (fun contents => [contents])
           [("1.html", "2.html"); ("notes.txt", "1.html"); ("2.html", "2.html")]%string).
  apply nodupb_NoDup. reflexivity.
Defined.

(** ** iterate_pagerank: what every run returns *)

(** Whatever the loop returns is a table written by a whole number of
    rounds; it never raises. *)
Lemma iterate_loop_result corpus d : forall fuel (r : string -> Q) x,
  NoDup (keys corpus) ->
  iterate_loop fuel corpus d (tab (keys corpus) r) = Some x ->
  exists t, x = Ok (tab (keys corpus) (after_rounds corpus d (S t) r)).
Proof.
  induction fuel as [|fuel IH]; intros r x Hnd Hrun; [discriminate|].
  rewrite iterate_loop_tab in Hrun by assumption.
  destruct (Nat.eqb _ _).
  - exists O. now inversion Hrun.
  - destruct (IH _ _ Hnd Hrun) as [t Ht]. now exists (S t).
Qed.

Lemma sigma_of_nonneg corpus (r : string -> Q) key :
  (forall j, 0 <= r j) -> 0 <= sigma_of corpus r key.
Proof.
  intros Hr. rewrite sigma_of_sum. apply Qsum_map_nonneg. intros e _.
  apply Qmult_le_0_compat; [apply weight_nonneg | apply Hr].
Qed.

Lemma new_rank_floor corpus d (r : string -> Q) key :
  0 <= d -> (forall j, 0 <= r j) ->
  (1 - d) / len corpus <= new_rank corpus d r key.
Proof.
  intros Hd Hr. unfold new_rank.
  pose proof (sigma_of_nonneg corpus r key Hr) as Hs.
  assert (0 <= d * sigma_of corpus r key) by now apply Qmult_le_0_compat.
  lra.
Qed.

Lemma floor_nonneg (corpus : Corpus) d : d <= 1 -> 0 <= (1 - d) / len corpus.
Proof.
  intros Hd. pose proof (len_nonneg corpus) as Hlen.
  apply Qle_lteq in Hlen. destruct Hlen as [Hpos|Hzero].
  - apply Qle_shift_div_l; [assumption | lra].
  - rewrite <- Hzero. unfold Qdiv. change (/ 0) with 0. lra.
Qed.

Lemma sweep_nonneg corpus d : forall todo (r : string -> Q),
  0 <= d <= 1 -> (forall j, 0 <= r j) ->
  forall j, 0 <= sweep corpus d todo r j.
Proof.
  induction todo as [|k todo IH]; intros r Hd Hr; simpl; [exact Hr|].
  apply IH; [assumption|]. intros j. unfold upd.
  destruct (String.eqb k j); [|apply Hr].
  apply (Qle_trans _ ((1 - d) / len corpus)); [apply floor_nonneg; lra|].
  apply new_rank_floor; [lra | exact Hr].
Qed.

Lemma sweep_floor corpus d : forall todo (r : string -> Q) k,
  0 <= d <= 1 -> (forall j, 0 <= r j) -> In k todo ->
  (1 - d) / len corpus <= sweep corpus d todo r k.
Proof.
  induction todo as [|x todo IH]; intros r k Hd Hr Hin; [destruct Hin|].
  simpl. set (r1 := upd r x (new_rank corpus d r x)).
  assert (Hr1 : forall j, 0 <= r1 j).
  { intros j. unfold r1, upd. destruct (String.eqb x j); [|apply Hr].
    apply (Qle_trans _ ((1 - d) / len corpus)); [apply floor_nonneg; lra|].
    apply new_rank_floor; [lra | exact Hr]. }
  destruct (in_dec string_dec k todo) as [Hk|Hk]; [now apply IH|].
  destruct Hin as [->|Hin]; [|contradiction].
  rewrite sweep_untouched by assumption. unfold r1, upd.
  rewrite String.eqb_refl. apply new_rank_floor; [lra | exact Hr].
Qed.

Lemma after_rounds_nonneg corpus d : forall t (r : string -> Q),
  0 <= d <= 1 -> (forall j, 0 <= r j) ->
  forall j, 0 <= after_rounds corpus d t r j.
Proof.
  induction t as [|t IH]; intros r Hd Hr; simpl; [exact Hr|].
  apply IH; [assumption|]. now apply sweep_nonneg.
Qed.

(** X4: [iterate_pagerank] never raises, whatever the link sets hold
    (links out of the corpus, self links, no pages at all): either the
    loop is still running or it has returned a table with exactly the
    pages of the corpus, in corpus order. *)
Theorem iterate_pagerank_returns_table corpus d fuel :
  nodupb (keys corpus) = true ->
  iterate_pagerank fuel corpus d = None \/
  exists table,
    iterate_pagerank fuel corpus d = Some (Ok table) /\
    keys table = keys corpus.
Proof.
  intros Hnd. apply nodupb_NoDup in Hnd.
  destruct (iterate_pagerank fuel corpus d) as [x|] eqn:Hrun; [|now left].
  right. unfold iterate_pagerank in Hrun.
  rewrite initial_ranks_tab in Hrun by assumption.
  destruct (iterate_loop_result corpus d fuel _ x Hnd Hrun) as [t ->].
  eexists. split; [reflexivity | apply keys_tab].
Qed.

Lemma iterate_pagerank_returns_table_witness :
  iterate_pagerank 30 [("A", ["A"; "Z"])]%string (85 # 100) = None \/
  exists table,
    iterate_pagerank 30 [("A", ["A"; "Z"])]%string (85 # 100)
    = Some (Ok table) /\
    keys table = keys [("A", ["A"; "Z"])]%string.
Proof.
  apply (iterate_pagerank_returns_table [("A", ["A"; "Z"])]%string
           (85 # 100) 30).
  reflexivity.
Defined.

(** X5: every rank [iterate_pagerank] returns is at least the
    random-jump share [(1 - d)/N], so it is positive for [d < 1]. *)
Theorem iterate_pagerank_floor corpus d fuel table k p :
  nodupb (keys corpus) = true -> 0 <= d < 1 ->
  iterate_pagerank fuel corpus d = Some (Ok table) ->
  dict_get table k = Some p ->
  (1 - d) / len corpus <= p /\ 0 < p.
Proof.
  intros Hnd Hd Hrun Hget. apply nodupb_NoDup in Hnd.
  unfold iterate_pagerank in Hrun.
  rewrite initial_ranks_tab in Hrun by assumption.
  destruct (iterate_loop_result corpus d fuel _ _ Hnd Hrun) as [t Ht].
  inversion Ht as [Htable]. clear Ht. subst table.
  destruct (in_dec string_dec k (keys corpus)) as [Hk|Hk];
    [|rewrite dict_get_tab_None in Hget by assumption; discriminate].
  rewrite dict_get_tab in Hget by assumption. inversion Hget as [Hp].
  assert (Hne : corpus <> []) by (intros ->; destruct Hk).
  pose proof (len_pos corpus Hne) as Hlen.
  assert (Hfloor : (1 - d) / len corpus
                   <= after_rounds corpus d (S t) (fun _ => 1 / len corpus) k).
  { rewrite after_rounds_S. apply sweep_floor; [lra| |assumption].
    apply after_rounds_nonneg; [lra|]. intros _.
    apply Qle_shift_div_l; [assumption | lra]. }
  split; [exact Hfloor|].
  eapply Qlt_le_trans; [|exact Hfloor].
  apply Qlt_shift_div_l; [assumption | lra].
Qed.

Lemma iterate_pagerank_floor_witness :
  (1 - (85 # 100)) / len [("A", ["B"]); ("B", ["A"])]%string <= 20000 # 40000
  /\ 0 < 20000 # 40000.
Proof.
  apply (iterate_pagerank_floor [("A", ["B"]); ("B", ["A"])]%string (85 # 100)
           3 [("A", 20000 # 40000); ("B", 400000000 # 800000000)]%string
           "A"%string (20000 # 40000)).
  - reflexivity.
  - lra.
  - vm_compute. reflexivity.
  - reflexivity.
Defined.

(** ** The order inside a link set *)

Lemma mem_perm k (l l' : list string) : Permutation l l' -> mem k l = mem k l'.
Proof.
  intros H. destruct (mem k l') eqn:Hm.
  - apply mem_In. apply mem_In in Hm.
    now apply (Permutation_in _ (Permutation_sym H)).
  - apply mem_not_In. apply mem_not_In in Hm. intros Hin. apply Hm.
    now apply (Permutation_in _ H).
Qed.

Lemma len_perm (l l' : list string) : Permutation l l' -> len l = len l'.
Proof.
  intros H. apply len_eq. now apply Permutation_length.
Qed.

Lemma same_sets_keys c c' : same_sets c c' -> keys c = keys c'.
Proof.
  induction 1 as [|e e' c c' [He _] _ IH]; simpl; [reflexivity|].
  now rewrite He, IH.
Qed.

Lemma same_sets_len c c' : same_sets c c' -> len c = len c'.
Proof.
  intros H. apply len_eq. exact (Forall2_length H).
Qed.

Lemma same_sets_getitem c c' k :
  same_sets c c' ->
  (getitem c k = Raise (KeyError k) /\ getitem c' k = Raise (KeyError k)) \/
  exists l l', getitem c k = Ok l /\ getitem c' k = Ok l' /\ Permutation l l'.
Proof.
  unfold getitem.
  induction 1 as [|[x l] [x' l'] c c' [He Hp] _ IH]; simpl; [now left|].
  simpl in He, Hp. subst x'. destruct (String.eqb k x); [|exact IH].
  right. now exists l, l'.
Qed.

Lemma for_each_ext {A S} (f g : S -> A -> result S) xs :
  (forall s x, f s x = g s x) -> forall s, for_each f xs s = for_each g xs s.
Proof.
  intros H. induction xs as [|x xs IH]; intros s; simpl; [reflexivity|].
  rewrite H. destruct (g s x); simpl; [apply IH | reflexivity].
Qed.

Lemma incoming_link_order c c' ranks key :
  same_sets c c' -> incoming c ranks key = incoming c' ranks key.
Proof.
  intros H. unfold incoming. rewrite (same_sets_keys c c' H).
  apply for_each_ext. intros sigma page.
  destruct (same_sets_getitem c c' page H)
    as [[-> ->]|(l & l' & -> & -> & Hp)]; [reflexivity|].
  simpl. now rewrite (mem_perm key l l' Hp), (len_perm l l' Hp).
Qed.

Lemma iterate_loop_link_order c c' d :
  same_sets c c' ->
  forall fuel ranks, iterate_loop fuel c d ranks = iterate_loop fuel c' d ranks.
Proof.
  intros H.
  assert (Hround : forall ranks, round c d ranks = round c' d ranks).
  { intros ranks. unfold round. rewrite (same_sets_keys c c' H).
    apply for_each_ext. intros [r count] key. unfold update_rank.
    now rewrite (incoming_link_order c c' r key H), (same_sets_len c c' H). }
  induction fuel as [|fuel IH]; intros ranks; simpl; [reflexivity|].
  rewrite Hround. destruct (round c' d ranks) as [[ranks' count]|e];
    [|reflexivity].
  rewrite (Forall2_length H). destruct (Nat.eqb _ _); [reflexivity | apply IH].
Qed.

(** X6: the ranks [iterate_pagerank] computes depend on which pages a
    link set holds, not on the order in which the set lists them. *)
Theorem iterate_pagerank_link_order c c' d fuel :
  same_sets c c' -> iterate_pagerank fuel c d = iterate_pagerank fuel c' d.
Proof.
  intros H. unfold iterate_pagerank, initial_ranks.
  rewrite (same_sets_keys c c' H), (same_sets_len c c' H).
  now apply iterate_loop_link_order.
Qed.

Lemma iterate_pagerank_link_order_witness :
  iterate_pagerank 8 sink_corpus (85 # 100)
  = iterate_pagerank 8 [("A", ["C"; "B"]); ("B", []); ("C", ["A"])]%string
      (85 # 100).
Proof.
  apply (iterate_pagerank_link_order sink_corpus
           [("A", ["C"; "B"]); ("B", []); ("C", ["A"])]%string (85 # 100) 8).
  repeat constructor.
Defined.

Lemma transition_model_same_sets c c' page d :
  NoDup (keys c) -> links_closed c = true -> same_sets c c' ->
  transition_model c page d = transition_model c' page d.
Proof.
  intros Hnd Hcl H. pose proof (same_sets_keys c c' H) as Hk.
  destruct (same_sets_getitem c c' page H)
    as [[Hc Hc']|(l & l' & Hc & Hc' & Hp)].
  - unfold transition_model. now rewrite Hc, Hc'.
  - pose proof (links_closed_incl c page l Hcl Hc) as Hincl.
    rewrite (transition_model_closed_form c page d l) by assumption.
    rewrite (transition_model_closed_form c' page d l').
    + rewrite <- Hk. f_equal. apply tab_ext. intros k _.
      unfold transition_prob.
      now rewrite (mem_perm k l l' Hp), (len_perm l l' Hp), Hk.
    + now rewrite <- Hk.
    + exact Hc'.
    + rewrite <- Hk. intros x Hx. apply Hincl.
      now apply (Permutation_in _ (Permutation_sym Hp)).
Qed.

(** X7: on a corpus whose links stay inside it, the distribution
    [transition_model] returns does not depend on the order in which
    the link sets list their pages. *)
Theorem transition_model_link_order c c' page d :
  nodupb (keys c) = true -> links_closed c = true -> same_sets c c' ->
  transition_model c page d = transition_model c' page d.
Proof.
  intros Hnd. apply nodupb_NoDup in Hnd. now apply transition_model_same_sets.
Qed.

Lemma transition_model_link_order_witness :
  transition_model sink_corpus "A" (85 # 100)
  = transition_model [("A", ["C"; "B"]); ("B", []); ("C", ["A"])]%string
      "A" (85 # 100).
Proof.
  apply (transition_model_link_order sink_corpus
           [("A", ["C"; "B"]); ("B", []); ("C", ["A"])]%string "A" (85 # 100)).
  - reflexivity.
  - reflexivity.
  - repeat constructor.
Defined.

(** X8: with the same random draws, [sample_pagerank] visits the same
    pages and returns the same table whatever the order inside the link
    sets. *)
Theorem sample_pagerank_link_order (R : Random) c c' d n (g : rng R) :
  nodupb (keys c) = true -> links_closed c = true -> same_sets c c' ->
  sample_pagerank R c d n g = sample_pagerank R c' d n g.
Proof.
  intros Hnd Hcl H. apply nodupb_NoDup in Hnd.
  assert (Htm : forall page, transition_model c page d
                             = transition_model c' page d).
  { intros page. now apply transition_model_same_sets. }
  assert (Hloop : forall i cp cur g0,
            sample_loop R c d n i cp cur g0 = sample_loop R c' d n i cp cur g0).
  { induction i as [|i IH]; intros cp cur g0; simpl; [reflexivity|].
    destruct (choices R (keys cur) (values cur) g0) as [[x g1]|e];
      simpl; [|reflexivity].
    destruct (getitem cp x); simpl; [|reflexivity].
    rewrite Htm. destruct (transition_model c' x d); simpl;
      [apply IH | reflexivity]. }
  unfold sample_pagerank. rewrite (same_sets_keys c c' H).
  destruct (choice R (keys c') g) as [[first g1]|e]; simpl; [|reflexivity].
  destruct (Nat.eqb n 0); simpl; [reflexivity|].
  rewrite Htm. destruct (transition_model c' first d); simpl;
    [apply Hloop | reflexivity].
Qed.

Lemma sample_pagerank_link_order_witness :
  sample_pagerank replay sink_corpus (85 # 100) 4 [1 # 2; 1 # 10; 9 # 10; 1 # 3]
  = sample_pagerank replay [("A", ["C"; "B"]); ("B", []); ("C", ["A"])]%string
      (85 # 100) 4 [1 # 2; 1 # 10; 9 # 10; 1 # 3].
Proof.
  apply (sample_pagerank_link_order replay sink_corpus
           [("A", ["C"; "B"]); ("B", []); ("C", ["A"])]%string (85 # 100) 4
           [1 # 2; 1 # 10; 9 # 10; 1 # 3]).
  - reflexivity.
  - reflexivity.
  - repeat constructor.
Defined.

(** ** transition_model: probabilities, and links out of the corpus *)

Lemma inv_len_bounds {A} (l : list A) : l <> [] -> 0 < 1 / len l <= 1.
Proof.
  intros Hne. pose proof (len_pos l Hne) as Hpos.
  assert (Hone : 1 <= len l).
  { destruct l as [|x l]; [congruence|]. rewrite len_cons.
    pose proof (len_nonneg l). lra. }
  split.
  - apply Qlt_shift_div_l; [assumption | lra].
  - apply Qle_shift_div_r; [assumption | lra].
Qed.

(** X9: for a page of a corpus whose links stay inside it, every value
    of the distribution [transition_model] returns is a probability,
    positive and at most 1, whether or not the page has links. *)
Theorem transition_model_probabilities corpus page d :
  nodupb (keys corpus) = true -> links_closed corpus = true ->
  In page (keys corpus) -> 0 < d < 1 ->
  exists dist,
    transition_model corpus page d = Ok dist /\
    keys dist = keys corpus /\
    forall k p, dict_get dist k = Some p -> 0 < p <= 1.
Proof.
  intros Hnd Hcl Hpage Hd. apply nodupb_NoDup in Hnd.
  destruct (getitem_key corpus page Hpage) as [links Hget].
  pose proof (links_closed_incl _ _ _ Hcl Hget) as Hincl.
  eexists. split; [apply transition_model_closed_form; eassumption|].
  rewrite keys_tab. split; [reflexivity|]. intros k p Hp.
  destruct (in_dec string_dec k (keys corpus)) as [Hk|Hk];
    [|rewrite dict_get_tab_None in Hp by assumption; discriminate].
  rewrite dict_get_tab in Hp by assumption. inversion Hp as [Heq]. clear Hp Heq.
  unfold transition_prob.
  assert (HN : 0 < 1 / len (keys corpus) <= 1).
  { apply inv_len_bounds. intros Hnil. rewrite Hnil in Hk. destruct Hk. }
  assert (Hjump : 0 < (1 - d) * (1 / len (keys corpus)) <= 1 - d).
  { split.
    - apply Qmult_lt_0_compat; lra.
    - setoid_replace (1 - d) with ((1 - d) * 1) at 2 by ring.
      apply Qmult_le_nonneg_l; lra. }
  destruct (mem k links) eqn:Hmem; [|lra].
  assert (HL : 0 < 1 / len links <= 1).
  { apply inv_len_bounds. intros Hnil. rewrite Hnil in Hmem. discriminate. }
  assert (Hlink : 0 <= d * (1 / len links) <= d).
  { split.
    - apply Qmult_le_0_compat; lra.
    - setoid_replace d with (d * 1) at 2 by ring.
      apply Qmult_le_nonneg_l; lra. }
  lra.
Qed.

Lemma transition_model_probabilities_witness :
  exists dist,
    transition_model sink_corpus "B" (85 # 100) = Ok dist /\
    keys dist = keys sink_corpus /\
    forall k p, dict_get dist k = Some p -> 0 < p <= 1.
Proof.
  apply (transition_model_probabilities sink_corpus "B" (85 # 100)).
  - reflexivity.
  - reflexivity.
  - simpl. auto.
  - lra.
Defined.

Lemma dict_get_set {V} (d : dict V) k v k' :
  dict_get (dict_set d k v) k'
  = if String.eqb k' k then Some v else dict_get d k'.
Proof.
  induction d as [|[x w] d IH]; simpl.
  - reflexivity.
  - destruct (String.eqb_spec k x) as [->|Hne]; simpl.
    + now destruct (String.eqb k' x).
    + rewrite IH. destruct (String.eqb_spec k' x) as [->|_]; [|reflexivity].
      destruct (String.eqb_spec x k); congruence.
Qed.

Lemma assign_links_get v ls : forall (pr : dict Q) k,
  dict_get (fold_left (fun pr page => dict_set pr page v) ls pr) k
  = if mem k ls then Some v else dict_get pr k.
Proof.
  induction ls as [|l ls IH]; intros pr k; simpl; [reflexivity|].
  rewrite IH, dict_get_set.
  destruct (String.eqb k l); simpl; [|reflexivity].
  now destruct (mem k ls).
Qed.

Lemma add_floor_get c : forall ps (pr : dict Q),
  NoDup ps -> (forall p, In p ps -> dict_get pr p <> None) ->
  exists pr',
    for_each (fun pr page => old <- getitem pr page ;;
                             Ok (dict_set pr page (old + c))) ps pr = Ok pr' /\
    forall k, dict_get pr' k
              = if mem k ps then option_map (fun old => old + c) (dict_get pr k)
                else dict_get pr k.
Proof.
  induction ps as [|p ps IH]; intros pr Hnd Hhas; simpl.
  - now exists pr.
  - inversion Hnd as [|? ? Hp Hnd']; subst.
    unfold getitem at 1.
    destruct (dict_get pr p) as [old|] eqn:Hold;
      [|exfalso; now apply (Hhas p (or_introl eq_refl))].
    simpl.
    destruct (IH (dict_set pr p (old + c)) Hnd') as (pr' & Hrun & Hget).
    { intros q Hq. rewrite dict_get_set.
      destruct (String.eqb q p); [discriminate|]. apply Hhas. now right. }
    exists pr'. split; [exact Hrun|]. intros k. rewrite Hget, dict_get_set.
    destruct (String.eqb_spec k p) as [->|Hne]; simpl.
    + apply mem_not_In in Hp. now rewrite Hp, Hold.
    + reflexivity.
Qed.

(** X10: [transition_model] does not need the links to stay inside the
    corpus.  For any page of the corpus it returns a table in which the
    pages of the corpus carry their usual probability, a linked page
    that is not in the corpus carries the link share [d/|links|] alone,
    and nothing else is listed. *)
Theorem transition_model_dangling corpus page d links :
  nodupb (keys corpus) = true -> getitem corpus page = Ok links ->
  exists dist,
    transition_model corpus page d = Ok dist /\
    forall k,
      dict_get dist k
      = if mem k (keys corpus) then Some (transition_prob corpus links d k)
        else if mem k links then Some (d * (1 / len links))
        else None.
Proof.
  intros Hnd Hget. apply nodupb_NoDup in Hnd.
  unfold transition_model. rewrite Hget. simpl.
  rewrite collect_pages. simpl. rewrite fill_tab by assumption.
  set (pr := fold_left _ links _).
  assert (Hpr : forall k,
            dict_get pr k
            = if mem k links then Some (d * (1 / len links))
              else if mem k (keys corpus) then Some 0 else None).
  { intros k. unfold pr. rewrite assign_links_get.
    destruct (mem k links); [reflexivity|].
    destruct (mem k (keys corpus)) eqn:Hk.
    - apply mem_In in Hk. now rewrite dict_get_tab.
    - apply mem_not_In in Hk. now rewrite dict_get_tab_None. }
  destruct (add_floor_get ((1 - d) * (1 / len (keys corpus))) (keys corpus) pr Hnd)
    as (dist & Hrun & Hdist).
  { intros p Hp. rewrite Hpr. apply mem_In in Hp. rewrite Hp.
    destruct (mem p links); discriminate. }
  exists dist. split; [exact Hrun|]. intros k. rewrite Hdist, Hpr.
  unfold transition_prob.
  destruct (mem k (keys corpus)), (mem k links); reflexivity.
Qed.

Lemma transition_model_dangling_witness :
  exists dist,
    transition_model [("A", ["Z"])]%string "A" (85 # 100) = Ok dist /\
    forall k,
      dict_get dist k
      = if mem k (keys [("A", ["Z"])]%string)
        then Some (transition_prob [("A", ["Z"])]%string ["Z"]%string
                     (85 # 100) k)
        else if mem k ["Z"]%string
             then Some ((85 # 100) * (1 / len ["Z"]%string))
             else None.
Proof.
  apply (transition_model_dangling [("A", ["Z"])]%string "A" (85 # 100)
           ["Z"]%string).
  - reflexivity.
  - reflexivity.
Defined.

(** ** sample_pagerank: the calls that fail *)

(** X11: asking for zero samples from a corpus with pages raises
    [ZeroDivisionError], at the first [1/n], once the first page has been
    drawn. *)
Theorem sample_pagerank_zero_samples (R : Random) corpus d (g : rng R) :
  RandomSpec R -> corpus <> [] ->
  sample_pagerank R corpus d 0 g = Raise ZeroDivisionError.
Proof.
  intros HR Hne. unfold sample_pagerank.
  destruct (choice_in R HR (keys corpus) g) as (first & g' & Hc & _).
  { destruct corpus; [congruence | discriminate]. }
  now rewrite Hc.
Qed.

Lemma sample_pagerank_zero_samples_witness :
  sample_pagerank replay sink_corpus (85 # 100) 0 [1 # 2]
  = Raise ZeroDivisionError.
Proof.
  apply (sample_pagerank_zero_samples replay sink_corpus (85 # 100) [1 # 2]).
  - exact replay_spec.
  - discriminate.
Defined.

(** X12: on a corpus without pages [sample_pagerank] fails where
    [random.choice] does: with Python's generator, which raises
    [IndexError] on an empty sequence, the call raises [IndexError],
    for every sample count, zero included. *)
Theorem sample_pagerank_empty_corpus (R : Random) d n (g : rng R) :
  choice R [] g = Raise IndexError ->
  sample_pagerank R [] d n g = Raise IndexError.
Proof.
  intros Hc. unfold sample_pagerank. simpl. now rewrite Hc.
Qed.

Lemma sample_pagerank_empty_corpus_witness :
  sample_pagerank replay [] (85 # 100) 0 [1 # 2] = Raise IndexError.
Proof.
  apply (sample_pagerank_empty_corpus replay (85 # 100) 0 [1 # 2]).
  reflexivity.
Defined.

(** X13: when a link leaves the corpus the walk can draw a page that
    has no counter: as soon as the second sample is such a page [x],
    [sample_pagerank] raises [KeyError] for [x]. *)
Theorem sample_pagerank_leaves_corpus (R : Random) corpus d n (g g1 g2 : rng R)
  first dist x :
  nodupb (keys corpus) = true -> (2 <= n)%nat ->
  choice R (keys corpus) g = Ok (first, g1) ->
  transition_model corpus first d = Ok dist ->
  choices R (keys dist) (values dist) g1 = Ok (x, g2) ->
  ~ In x (keys corpus) ->
  sample_pagerank R corpus d n g = Raise (KeyError x).
Proof.
  intros Hnd Hn Hc Htm Hcs Hx. apply nodupb_NoDup in Hnd.
  assert (Hfirst : In first (keys corpus)).
  { destruct (in_dec string_dec first (keys corpus)) as [H|H]; [exact H|].
    rewrite transition_model_missing in Htm by assumption. discriminate. }
  unfold sample_pagerank. rewrite fill_tab by assumption. rewrite Hc. simpl.
  destruct (Nat.eqb_spec n 0) as [->|_]; [lia|]. simpl.
  rewrite Htm. simpl.
  destruct n as [|[|n]]; [lia | lia |]. cbn [Nat.sub sample_loop].
  rewrite Hcs. simpl.
  rewrite dict_set_tab by assumption.
  rewrite getitem_missing; [reflexivity|]. now rewrite keys_tab.
Qed.

Lemma sample_pagerank_leaves_corpus_witness :
  sample_pagerank replay [("A", ["Z"])]%string (85 # 100) 3 [0; 1 # 2; 1 # 2]
  = Raise (KeyError "Z").
Proof.
  apply (sample_pagerank_leaves_corpus replay [("A", ["Z"])]%string (85 # 100)
           3 [0; 1 # 2; 1 # 2] [1 # 2; 1 # 2] [1 # 2] "A"%string
           [("A", 15 # 100); ("Z", 85 # 100)]%string "Z"%string).
  - reflexivity.
  - lia.
  - reflexivity.
  - vm_compute. reflexivity.
  - vm_compute. reflexivity.
  - simpl. intuition discriminate.
Defined.

(** ** main *)

Lemma insert_sorted_perm x l : Permutation (insert_sorted x l) (x :: l).
Proof.
  induction l as [|y l IH]; simpl; [reflexivity|].
  destruct (String.leb x y); [reflexivity|].
  eapply perm_trans; [apply perm_skip, IH | apply perm_swap].
Qed.

Lemma sorted_perm l : Permutation (sorted l) l.
Proof.
  induction l as [|x l IH]; simpl; [constructor|].
  eapply perm_trans; [apply insert_sorted_perm | now apply perm_skip].
Qed.

Lemma insert_sorted_Sorted x l :
  Sorted (fun a b => String.leb a b = true) l ->
  Sorted (fun a b => String.leb a b = true) (insert_sorted x l).
Proof.
  induction 1 as [|y l Hl IH Hy]; simpl.
  - repeat constructor.
  - destruct (String.leb x y) eqn:Hxy.
    + repeat constructor; assumption.
    + assert (Hyx : String.leb y x = true).
      { destruct (String.leb_total x y); congruence. }
      constructor; [exact IH|].
      destruct Hy as [|z l Hz]; simpl.
      * now constructor.
      * destruct (String.leb x z); now constructor.
Qed.

Lemma sorted_Sorted l : Sorted (fun a b => String.leb a b = true) (sorted l).
Proof.
  induction l as [|x l IH]; simpl; [constructor|].
  now apply insert_sorted_Sorted.
Qed.

Section MainProperties.
Variable findall : string -> list string.
Variable listdir : string -> list (string * string).
Variable R : Random.

(** X14: started on a directory that holds no [.html] file, [main]
    prints nothing and stops with the [IndexError] that [random.choice]
    raises on the empty list of pages; [iterate_pagerank] is never
    reached. *)
Theorem main_without_pages argv (g : rng R) fuel :
  List.length argv = 2%nat ->
  NoDup (map fst (listdir (nth 1 argv ""%string))) ->
  html_files (listdir (nth 1 argv ""%string)) = [] ->
  choice R [] g = Raise IndexError ->
  main findall listdir R argv g fuel = Some ([], Uncaught IndexError).
Proof.
  intros Hargv Hnd Hnone Hc. unfold main. rewrite Hargv. simpl.
  rewrite crawl_closed_form by assumption. rewrite Hnone. simpl.
  unfold sample_pagerank. simpl. now rewrite Hc.
Qed.
End MainProperties.

Lemma main_without_pages_witness :
  main (fun contents => [contents])
    (fun _ => [("notes.txt", "1.html")]%string) replay
    ["pagerank.py"; "corpus"]%string [1 # 2] 5
  = Some ([], Uncaught IndexError).
Proof.
  apply (main_without_pages (fun contents => [contents])
           (fun _ => [("notes.txt", "1.html")]%string) replay
           ["pagerank.py"; "corpus"]%string [1 # 2] 5).
  - reflexivity.
  - apply nodupb_NoDup. reflexivity.
  - reflexivity.
  - reflexivity.
Defined.

(** ** The exact reading and the program over any arithmetic *)

(** At exact arithmetic the generic program is the exact reading used
    above, definition by definition. *)
Lemma transition_model_exact corpus page d :
  Generic.transition_model exact corpus page d = transition_model corpus page d.
Proof.
  reflexivity.
Qed.

Lemma iterate_pagerank_exact fuel corpus d :
  Generic.iterate_pagerank exact fuel corpus d = iterate_pagerank fuel corpus d.
Proof.
  unfold Generic.iterate_pagerank, iterate_pagerank.
  change (Generic.initial_ranks exact corpus) with (initial_ranks corpus).
  generalize (initial_ranks corpus). induction fuel as [|fuel IH]; intros ranks.
  - reflexivity.
  - simpl. change (Generic.round exact corpus d ranks) with (round corpus d ranks).
    destruct (round corpus d ranks) as [[ranks' count]|e]; [|reflexivity].
    destruct (Nat.eqb count (List.length corpus)); [reflexivity | apply IH].
Qed.

Lemma sample_loop_exact (R : Random) corpus (d : Q) n :
  forall i (cp cur : dict Q) (g : rng R),
  Generic.sample_loop exact (exact_random R) corpus d n i cp cur g
  = sample_loop R corpus d n i cp cur g.
Proof.
  induction i as [|i IH]; intros cp cur g; [reflexivity|].
  cbn [Generic.sample_loop sample_loop].
  change (Generic.choices exact (exact_random R)) with (choices R).
  change (num exact) with Q.
  destruct (choices R (keys cur) (values cur) g) as [[x g']|e]; [|reflexivity].
  cbn [bind]. destruct (getitem cp x) as [old|e]; [|reflexivity]. cbn [bind].
  change (Generic.transition_model exact corpus x d)
    with (transition_model corpus x d).
  destruct (transition_model corpus x d) as [cur'|e]; [|reflexivity].
  cbn [bind]. apply IH.
Qed.

Lemma sample_pagerank_exact (R : Random) corpus (d : Q) n (g : rng R) :
  Generic.sample_pagerank exact (exact_random R) corpus d n g
  = sample_pagerank R corpus d n g.
Proof.
  unfold Generic.sample_pagerank, sample_pagerank.
  change (Generic.choice exact (exact_random R)) with (choice R).
  change (num exact) with Q.
  destruct (choice R (keys corpus) g) as [[first g']|e]; [|reflexivity].
  cbn [bind]. destruct (Nat.eqb n 0); [reflexivity|]. cbn [bind].
  change (Generic.transition_model exact corpus first d)
    with (transition_model corpus first d).
  destruct (transition_model corpus first d) as [cur|e]; [|reflexivity].
  cbn [bind]. apply sample_loop_exact.
Qed.

(** With every read a success, [crawl] over a directory that can fail
    is [crawl] over the texts. *)
Lemma crawl_exact (findall : string -> list string)
  (directory : list (string * string)) :
  Generic.crawl findall
    (Ok (map (fun file => (fst file, Ok (snd file))) directory))
  = crawl findall directory.
Proof.
  unfold Generic.crawl, crawl. cbn [bind].
  assert (Hfirst : forall pages0,
            for_each (fun pages (file : string * result string) =>
                        if negb (endswith (fst file) ".html") then Ok pages
                        else
                          contents <- snd file ;;
                          Ok (dict_set pages (fst file)
                                (filter (fun link =>
                                           negb (String.eqb link (fst file)))
                                   (set_of (findall contents)))))
              (map (fun file => (fst file, Ok (snd file))) directory) pages0
            = Ok (fold_left
                    (fun pages (file : string * string) =>
                       if negb (endswith (fst file) ".html") then pages
                       else
                         dict_set pages (fst file)
                           (filter (fun link =>
                                      negb (String.eqb link (fst file)))
                              (set_of (findall (snd file)))))
                    directory pages0)).
  { induction directory as [|[name text] directory IH]; intros pages0;
      [reflexivity|].
    cbn [map for_each fold_left fst snd].
    destruct (negb (endswith name ".html")); cbn [bind]; apply IH. }
  rewrite Hfirst. reflexivity.
Qed.

(** In binary64 the ranks [sample_pagerank] returns need not sum to 1:
    ten samples of the one page of a corpus leave it at ten times 0.1
    added up, 0.9999999999999999. *)
Lemma sample_pagerank_binary64_sum :
  Generic.sample_pagerank binary64 (round_robin binary64)
    [("A"%string, [])] (damping_value binary64) 10 0%nat
  = Ok [("A"%string, 0x1.fffffffffffffp-1%float)].
Proof.
  vm_compute. reflexivity.
Qed.

(** The threshold of the binary64 program is what Python reads the
    literal [0.0005] as: the correctly rounded quotient 5/10000. *)
Lemma threshold_binary64 :
  threshold_value binary64
  = PrimFloat.div (of_len binary64 5) (of_len binary64 (Z.to_nat 10000)).
Proof.
  vm_compute. reflexivity.
Qed.

(** ** iterate_pagerank in binary64: a run that never ends *)

Lemma cycle_rounds :
  Generic.round binary64 cycle_corpus damping_near_one
    (Generic.initial_ranks binary64 cycle_corpus)
  = Ok (cycle_table_odd, 2%nat)
  /\ Generic.round binary64 cycle_corpus damping_near_one cycle_table_odd
     = Ok (cycle_table_even, 1%nat)
  /\ Generic.round binary64 cycle_corpus damping_near_one cycle_table_even
     = Ok (cycle_table_odd, 1%nat).
Proof.
  repeat split; vm_compute; reflexivity.
Qed.

Lemma cycle_loop_never_ends fuel :
  Generic.iterate_loop binary64 fuel cycle_corpus damping_near_one
    cycle_table_odd = None
  /\ Generic.iterate_loop binary64 fuel cycle_corpus damping_near_one
       cycle_table_even = None.
Proof.
  destruct cycle_rounds as (_ & Hodd & Heven).
  induction fuel as [|fuel [IHodd IHeven]]; [now split|].
  split; cbn [Generic.iterate_loop].
  - rewrite Hodd. exact IHeven.
  - rewrite Heven. exact IHodd.
Qed.

(** C6, in binary64 on the cycle with damping 0.9999999999999999: the
    first round writes the table (0.25, 0.5, 0.25, 2^-55) with two pages
    under the threshold; from then on each round turns that table into
    (0.5, 0.25, 0.5, 2^-55) and back, with one page under the threshold
    each time, so [count == N] never holds and no number of passes ends
    the loop. *)
Theorem iterate_pagerank_binary64_never_ends :
  wf_corpus cycle_corpus = true
  /\ links_closed cycle_corpus = true
  /\ no_self_loops cycle_corpus = true
  /\ PrimFloat.ltb 0 damping_near_one = true
  /\ PrimFloat.ltb damping_near_one 1 = true
  /\ Generic.round binary64 cycle_corpus damping_near_one cycle_table_odd
     = Ok (cycle_table_even, 1%nat)
  /\ Generic.round binary64 cycle_corpus damping_near_one cycle_table_even
     = Ok (cycle_table_odd, 1%nat)
  /\ forall fuel,
       Generic.iterate_pagerank binary64 fuel cycle_corpus damping_near_one
       = None.
Proof.
  destruct cycle_rounds as (Hfirst & Hodd & Heven).
  repeat split; try reflexivity; try assumption.
  intros [|fuel]; [reflexivity|].
  unfold Generic.iterate_pagerank. cbn [Generic.iterate_loop].
  rewrite Hfirst. apply cycle_loop_never_ends.
Qed.

(** ** transition_model over any arithmetic *)

Lemma collect_pages_in {V} (z : V) ks : forall (ap : list string) (pr : dict V),
  fold_left (fun st pages => (fst st ++ [pages], dict_set (snd st) pages z))
    ks (ap, pr)
  = (ap ++ ks, fold_left (fun d k => dict_set d k z) ks pr).
Proof.
  induction ks as [|k ks IH]; intros ap pr; simpl.
  - now rewrite app_nil_r.
  - rewrite IH, <- app_assoc. reflexivity.
Qed.

Lemma assign_links_in {V} ks (v : V) ls : forall f : string -> V,
  NoDup ks -> incl ls ks ->
  fold_left (fun pr page => dict_set pr page v) ls (tab ks f)
  = tab ks (fun k => if mem k ls then v else f k).
Proof.
  induction ls as [|l ls IH]; intros f Hnd Hincl; simpl; [reflexivity|].
  rewrite dict_set_tab by (auto using in_eq).
  rewrite IH by (auto; intros x Hx; apply Hincl; now right).
  apply tab_ext. intros k _. unfold upd.
  rewrite (String.eqb_sym k l).
  destruct (String.eqb l k); simpl; [|reflexivity].
  now destruct (mem k ls).
Qed.

Lemma add_floor_in {V} (plus : V -> V -> V) ks c ps : forall f : string -> V,
  NoDup ks -> NoDup ps -> incl ps ks ->
  for_each (fun pr page => old <- getitem pr page ;;
                           Ok (dict_set pr page (plus old c))) ps (tab ks f)
  = Ok (tab ks (fun k => if mem k ps then plus (f k) c else f k)).
Proof.
  induction ps as [|p ps IH]; intros f Hnd Hps Hincl; simpl; [reflexivity|].
  inversion Hps as [|? ? Hp Hps']; subst.
  rewrite getitem_tab by (auto using in_eq). simpl.
  rewrite dict_set_tab by (auto using in_eq).
  rewrite IH by (auto; intros x Hx; apply Hincl; now right).
  f_equal. apply tab_ext. intros k _. unfold upd.
  rewrite (String.eqb_sym k p).
  destruct (String.eqb_spec p k) as [->|Hne]; simpl; [|reflexivity].
  apply mem_not_In in Hp. now rewrite Hp.
Qed.

(** The closed form of [transition_model] holds in every arithmetic: it
    rests on the dictionary alone. *)
Lemma transition_model_closed_form_in (A : arith) corpus page (d : num A) links :
  NoDup (keys corpus) -> getitem corpus page = Ok links ->
  incl links (keys corpus) ->
  Generic.transition_model A corpus page d
  = Ok (tab (keys corpus)
          (fun k =>
             add A (if mem k links
                    then mul A d (div A (one A) (of_len A (List.length links)))
                    else zero A)
               (mul A (sub A (one A) d)
                  (div A (one A) (of_len A (List.length (keys corpus))))))).
Proof.
  intros Hnd Hget Hincl. unfold Generic.transition_model. rewrite Hget. simpl.
  rewrite (collect_pages_in (V := num A) (zero A)). simpl.
  rewrite fill_tab by assumption.
  rewrite assign_links_in by assumption.
  rewrite (add_floor_in (add A)) by (auto using incl_refl).
  f_equal. apply tab_ext. intros k Hk.
  apply mem_In in Hk. now rewrite Hk.
Qed.

(** C7 as stated fails in binary64.  On the hub, from page A (one link,
    three pages): with damping 1e-17 the linked page B and the page C that
    is not linked both get 0x1.5555555555555p-2, so B does not get more;
    with damping 0.85 page C gets 0x1.999999999999ap-5, which is less
    than [(1 - d)/N] = 0x1.999999999999bp-5. *)
Lemma transition_model_linked_counterexample :
  Generic.transition_model binary64 hub_corpus "A" damping_tiny
  = Ok [("A", 0x1.5555555555555p-2); ("B", 0x1.5555555555555p-2);
        ("C", 0x1.5555555555555p-2)]%string%float
  /\ ~ linked_claim binary64 hub_corpus "A" damping_tiny
  /\ Generic.transition_model binary64 hub_corpus "A" damping_085
     = Ok [("A", 0x1.999999999999ap-5); ("B", 0x1.ccccccccccccdp-1);
           ("C", 0x1.999999999999ap-5)]%string%float
  /\ ~ linked_claim binary64 hub_corpus "A" damping_085.
Proof.
  split; [vm_compute; reflexivity|]. split; [|split; [vm_compute; reflexivity|]].
  - intros (links & dist & Hget & Htm & _ & _ & Hmore).
    vm_compute in Hget. inversion Hget; subst links. clear Hget.
    vm_compute in Htm. inversion Htm; subst dist. clear Htm.
    specialize (Hmore "B"%string "C"%string
                  0x1.5555555555555p-2%float 0x1.5555555555555p-2%float).
    assert (H : less binary64 0x1.5555555555555p-2%float
                  0x1.5555555555555p-2%float = true).
    { apply Hmore; try reflexivity.
      - simpl. lia.
      - simpl. auto.
      - simpl. auto.
      - simpl. intuition discriminate. }
    vm_compute in H. discriminate H.
  - intros (links & dist & Hget & Htm & _ & Hfloor & _).
    vm_compute in Htm. inversion Htm; subst dist. clear Htm.
    specialize (Hfloor "C"%string 0x1.999999999999ap-5%float).
    assert (H : less binary64 0x1.999999999999ap-5%float
                  (div binary64 (sub binary64 (one binary64) damping_085)
                     (of_len binary64 (List.length hub_corpus))) = false).
    { apply Hfloor; [simpl; auto | reflexivity]. }
    vm_compute in H. discriminate H.
Qed.

(** C7, amended.  In whatever arithmetic the program runs, on a page
    with at least one link every linked page gets exactly
    [d * (1/|links|) + (1 - d) * (1/N)] and every other page of the
    corpus exactly [0 + (1 - d) * (1/N)], each evaluated in that order.
    In exact arithmetic, for [d] in (0,1), the first value is
    [d/|links| + (1 - d)/N], every page is at or above the floor
    [(1 - d)/N], and a linked page is strictly above a page that is not
    linked. *)
Theorem transition_model_linked_values (A : arith) corpus page (d : num A)
  links :
  wf_corpus corpus = true -> links_closed corpus = true ->
  getitem corpus page = Ok links -> links <> [] ->
  (exists dist,
     Generic.transition_model A corpus page d = Ok dist /\
     keys dist = keys corpus /\
     (forall k, In k links ->
        dict_get dist k
        = Some (add A (mul A d (div A (one A) (of_len A (List.length links))))
                  (mul A (sub A (one A) d)
                     (div A (one A) (of_len A (List.length corpus)))))) /\
     (forall k, In k (keys corpus) -> ~ In k links ->
        dict_get dist k
        = Some (add A (zero A)
                  (mul A (sub A (one A) d)
                     (div A (one A) (of_len A (List.length corpus)))))))
  /\
  (forall q : Q, 0 < q < 1 ->
     exists dist : dict Q,
       Generic.transition_model exact corpus page q = Ok dist /\
       keys dist = keys corpus /\
       (forall k, In k links ->
          exists p, dict_get dist k = Some p /\
                    p == q / len links + (1 - q) / len corpus) /\
       (forall k, In k (keys corpus) ->
          exists p, dict_get dist k = Some p /\ (1 - q) / len corpus <= p) /\
       (forall k k' p p',
          (List.length links < List.length corpus)%nat ->
          In k links -> In k' (keys corpus) -> ~ In k' links ->
          dict_get dist k = Some p -> dict_get dist k' = Some p' -> p' < p)).
Proof.
  intros Hwf Hcl Hget Hl.
  pose proof (links_closed_incl _ _ _ Hcl Hget) as Hincl.
  pose proof (wf_corpus_keys _ Hwf) as Hnd.
  assert (Hlen : List.length (keys corpus) = List.length corpus)
    by apply length_map.
  split.
  - eexists. split; [apply transition_model_closed_form_in; eassumption|].
    rewrite keys_tab, Hlen. split; [reflexivity|]. split.
    + intros k Hk. rewrite dict_get_tab by auto.
      apply mem_In in Hk. now rewrite Hk.
    + intros k Hk Hnk. rewrite dict_get_tab by auto.
      apply mem_not_In in Hnk. now rewrite Hnk.
  - intros q Hq.
    change (Generic.transition_model exact corpus page q)
      with (transition_model corpus page q).
    assert (Hne : corpus <> []).
    { intros ->. apply getitem_Ok_In in Hget. destruct Hget. }
    pose proof (len_pos corpus Hne) as HN.
    pose proof (len_pos links Hl) as HL.
    assert (HNk : len (keys corpus) = len corpus)
      by (apply len_eq, length_map).
    assert (Hbase : 0 < q * (1 / len links)).
    { apply Qmult_lt_0_compat; [lra|]. unfold Qdiv. rewrite Qmult_1_l.
      now apply Qinv_lt_0_compat. }
    eexists. split; [apply transition_model_closed_form; eassumption|].
    rewrite keys_tab. split; [reflexivity|]. repeat split.
    + intros k Hk. rewrite dict_get_tab by auto. eexists. split; eauto.
      unfold transition_prob. apply mem_In in Hk. rewrite Hk, HNk.
      field. lra.
    + intros k Hk. rewrite dict_get_tab by auto. eexists. split; eauto.
      unfold transition_prob. rewrite HNk.
      setoid_replace ((1 - q) * (1 / len corpus)) with ((1 - q) / len corpus)
        by (field; lra).
      destruct (mem k links); lra.
    + intros k k' p p' _ Hk Hk' Hnk'.
      rewrite !dict_get_tab by auto. intros [= <-] [= <-].
      unfold transition_prob. apply mem_In in Hk. apply mem_not_In in Hnk'.
      rewrite Hk, Hnk'. lra.
Qed.

Lemma transition_model_linked_values_witness :
  (exists dist,
     Generic.transition_model binary64 sink_corpus "A" damping_085 = Ok dist /\
     keys dist = keys sink_corpus /\
     (forall k, In k ["B"; "C"]%string ->
        dict_get dist k
        = Some (add binary64
                  (mul binary64 damping_085
                     (div binary64 (one binary64)
                        (of_len binary64 (List.length ["B"; "C"]%string))))
                  (mul binary64 (sub binary64 (one binary64) damping_085)
                     (div binary64 (one binary64)
                        (of_len binary64 (List.length sink_corpus)))))) /\
     (forall k, In k (keys sink_corpus) -> ~ In k ["B"; "C"]%string ->
        dict_get dist k
        = Some (add binary64 (zero binary64)
                  (mul binary64 (sub binary64 (one binary64) damping_085)
                     (div binary64 (one binary64)
                        (of_len binary64 (List.length sink_corpus)))))))
  /\
  (forall q : Q, 0 < q < 1 ->
     exists dist : dict Q,
       Generic.transition_model exact sink_corpus "A" q = Ok dist /\
       keys dist = keys sink_corpus /\
       (forall k, In k ["B"; "C"]%string ->
          exists p, dict_get dist k = Some p /\
                    p == q / len ["B"; "C"]%string + (1 - q) / len sink_corpus) /\
       (forall k, In k (keys sink_corpus) ->
          exists p, dict_get dist k = Some p /\
                    (1 - q) / len sink_corpus <= p) /\
       (forall k k' p p',
          (List.length ["B"; "C"]%string < List.length sink_corpus)%nat ->
          In k ["B"; "C"]%string -> In k' (keys sink_corpus) ->
          ~ In k' ["B"; "C"]%string ->
          dict_get dist k = Some p -> dict_get dist k' = Some p' -> p' < p)).
Proof.
  apply (transition_model_linked_values binary64 sink_corpus "A" damping_085
           ["B"; "C"]%string).
  - reflexivity.
  - reflexivity.
  - reflexivity.
  - discriminate.
Defined.

(** ** The whole program, in any arithmetic *)

Lemma keys_dict_set_in {V} (d : dict V) k v :
  In k (keys d) -> keys (dict_set d k v) = keys d.
Proof.
  induction d as [|[x w] d IH]; simpl; [tauto|].
  intros H. destruct (String.eqb_spec k x) as [->|Hne]; [reflexivity|].
  simpl. f_equal. apply IH. destruct H; congruence.
Qed.

Lemma getitem_Ok_key {V} (d : dict V) k v : getitem d k = Ok v -> In k (keys d).
Proof.
  intros H. apply getitem_Ok_In in H. now apply (in_map fst) in H.
Qed.

(** A file that is read gives the corpus that the listing of the texts
    gives: when [crawl] returns, every [.html] file was read. *)
Lemma crawl_first_pass_reads (findall : string -> list string) :
  forall listing pages0 pages,
  for_each (fun pages file =>
              if negb (endswith (fst file) ".html") then Ok pages
              else
                contents <- snd file ;;
                let links := findall contents in
                Ok (dict_set pages (fst file)
                      (filter (fun link => negb (String.eqb link (fst file)))
                         (set_of links))))
    listing pages0 = Ok pages ->
  fold_left (fun pages file =>
               if negb (endswith (fst file) ".html") then pages
               else
                 let links := findall (snd file) in
                 dict_set pages (fst file)
                   (filter (fun link => negb (String.eqb link (fst file)))
                      (set_of links)))
    (read_texts listing) pages0 = pages.
Proof.
  induction listing as [|[name text] listing IH]; intros pages0 pages Hrun;
    simpl in *.
  - now inversion Hrun.
  - destruct (endswith name ".html"); simpl in *; [|now apply IH].
    destruct text as [contents|e]; simpl in *; [now apply IH | discriminate].
Qed.

Lemma crawl_reads (findall : string -> list string) listing corpus :
  Generic.crawl findall (Ok listing) = Ok corpus ->
  crawl findall (read_texts listing) = Ok corpus.
Proof.
  intros Hrun. unfold Generic.crawl in Hrun. cbn [bind] in Hrun.
  match type of Hrun with
  | bind ?m _ = _ => destruct m as [pages|e] eqn:Hfirst; [|discriminate]
  end.
  apply crawl_first_pass_reads in Hfirst. cbn [bind] in Hrun.
  unfold crawl. cbv zeta in Hfirst. rewrite Hfirst. exact Hrun.
Qed.

Lemma read_texts_names listing : map fst (read_texts listing) = map fst listing.
Proof.
  unfold read_texts. rewrite map_map. reflexivity.
Qed.

Section ProgramProperties.
Variable A : arith.

(** The sampler only ever writes to counters that exist, so the table
    it returns has the keys it started with. *)
Lemma sample_loop_keys (R : Generic.Random A) corpus d n :
  forall i cp cur (g : Generic.rng A R) table,
  Generic.sample_loop A R corpus d n i cp cur g = Ok table ->
  keys table = keys cp.
Proof.
  induction i as [|i IH]; intros cp cur g table Hrun; simpl in Hrun.
  - now inversion Hrun.
  - destruct (Generic.choices A R (keys cur) (values cur) g) as [[x g']|e];
      simpl in Hrun; [|discriminate].
    destruct (getitem cp x) as [old|e] eqn:Hget; simpl in Hrun; [|discriminate].
    destruct (Generic.transition_model A corpus x d) as [cur'|e];
      simpl in Hrun; [|discriminate].
    rewrite (IH _ _ _ _ Hrun). apply keys_dict_set_in.
    now apply getitem_Ok_key in Hget.
Qed.

Lemma sample_pagerank_keys (R : Generic.Random A) corpus d n
  (g : Generic.rng A R) table :
  NoDup (keys corpus) ->
  Generic.sample_pagerank A R corpus d n g = Ok table ->
  keys table = keys corpus.
Proof.
  intros Hnd Hrun. unfold Generic.sample_pagerank in Hrun.
  rewrite fill_tab in Hrun by assumption.
  destruct (Generic.choice A R (keys corpus) g) as [[first g']|e];
    simpl in Hrun; [|discriminate].
  destruct (Nat.eqb n 0); simpl in Hrun; [discriminate|].
  destruct (Generic.transition_model A corpus first d) as [cur|e] eqn:Htm;
    simpl in Hrun; [|discriminate].
  assert (Hfirst : In first (keys corpus)).
  { destruct (in_dec string_dec first (keys corpus)) as [H|H]; [exact H|].
    unfold Generic.transition_model in Htm.
    rewrite getitem_missing in Htm by assumption. discriminate. }
  rewrite (sample_loop_keys _ _ _ _ _ _ _ _ _ Hrun).
  rewrite keys_dict_set_in; now rewrite keys_tab.
Qed.

(** A round writes to the keys it reads, so it keeps the keys of the
    table. *)
Lemma round_keys corpus d : forall ks ranks count ranks' count',
  for_each (Generic.update_rank A corpus d) ks (ranks, count)
  = Ok (ranks', count') ->
  keys ranks' = keys ranks.
Proof.
  induction ks as [|k ks IH]; intros ranks count ranks' count' Hrun;
    simpl in Hrun.
  - now inversion Hrun.
  - destruct (Generic.incoming A corpus ranks k) as [sigma|e]; simpl in Hrun;
      [|discriminate].
    destruct (getitem ranks k) as [old|e] eqn:Hget; simpl in Hrun;
      [|discriminate].
    rewrite (IH _ _ _ _ Hrun). apply keys_dict_set_in.
    now apply getitem_Ok_key in Hget.
Qed.

Lemma iterate_loop_keys corpus d : forall fuel ranks table,
  Generic.iterate_loop A fuel corpus d ranks = Some (Ok table) ->
  keys table = keys ranks.
Proof.
  induction fuel as [|fuel IH]; intros ranks table Hrun; [discriminate|].
  simpl in Hrun.
  destruct (Generic.round A corpus d ranks) as [[ranks' count]|e] eqn:Hround;
    [|discriminate].
  apply round_keys in Hround.
  destruct (Nat.eqb count (List.length corpus)).
  - inversion Hrun; subst. exact Hround.
  - rewrite (IH _ _ Hrun). exact Hround.
Qed.

Lemma initial_ranks_keys corpus :
  NoDup (keys corpus) -> keys (Generic.initial_ranks A corpus) = keys corpus.
Proof.
  intros Hnd. unfold Generic.initial_ranks. rewrite fill_tab by assumption.
  rewrite assign_links_in by (auto using incl_refl). apply keys_tab.
Qed.

Lemma iterate_pagerank_keys fuel corpus d table :
  NoDup (keys corpus) ->
  Generic.iterate_pagerank A fuel corpus d = Some (Ok table) ->
  keys table = keys corpus.
Proof.
  intros Hnd Hrun. unfold Generic.iterate_pagerank in Hrun.
  apply iterate_loop_keys in Hrun. rewrite Hrun.
  now apply initial_ranks_keys.
Qed.

Lemma print_ranks_lines (ranks : dict (num A)) : forall pages out,
  incl pages (keys ranks) ->
  exists lines,
    Generic.print_ranks A ranks pages out = (out ++ lines, None) /\
    map page_of lines = map Some pages.
Proof.
  induction pages as [|page pages IH]; intros out Hincl; simpl.
  - exists []. now rewrite app_nil_r.
  - destruct (getitem_key ranks page (Hincl page (or_introl eq_refl)))
      as [rank Hget].
    unfold getitem in Hget. destruct (dict_get ranks page) as [r|];
      [|discriminate].
    destruct (IH (out ++ [Generic.RankLine A page r])) as (lines & Hrun & Hpages).
    { intros x Hx. apply Hincl. now right. }
    exists (Generic.RankLine A page r :: lines). rewrite Hrun, <- app_assoc.
    simpl. now rewrite Hpages.
Qed.

(** X15: whenever [main] runs to its end, in whatever arithmetic and
    with whatever random source, the directory was listed and every
    [.html] file of it was read, and what [main] has printed is the
    sampling title, one rank line per [.html] file in increasing order
    of the file names, then the iteration title and again one rank line
    per file in the same order.  (Whether [main] gets there is not part
    of this statement: a read can raise, and the loop of
    [iterate_pagerank] need not end.) *)
Theorem main_output (findall : string -> list string)
  (listdir : string -> result (list (string * result string)))
  (R : Generic.Random A) argv (g : Generic.rng A R) fuel :
  (forall listing, listdir (nth 1 argv ""%string) = Ok listing ->
                   NoDup (map fst listing)) ->
  match Generic.main A findall listdir R argv g fuel with
  | Some (out, Finished) =>
      exists listing pages sampled iterated,
        List.length argv = 2%nat /\
        listdir (nth 1 argv ""%string) = Ok listing /\
        (forall file, In file listing -> endswith (fst file) ".html" = true ->
                      exists contents, snd file = Ok contents) /\
        Permutation pages
          (filter (fun name => endswith name ".html") (map fst listing)) /\
        Sorted (fun a b => String.leb a b = true) pages /\
        out = Generic.SamplingTitle A SAMPLES :: sampled
              ++ Generic.IterationTitle A :: iterated /\
        map page_of sampled = map Some pages /\
        map page_of iterated = map Some pages
  | _ => True
  end.
Proof.
  intros Hlist. unfold Generic.main.
  destruct (Nat.eqb_spec (List.length argv) 2) as [Hargv|_]; simpl; [|exact I].
  destruct (listdir (nth 1 argv ""%string)) as [listing|e] eqn:Hdir;
    [|exact I].
  specialize (Hlist listing eq_refl).
  destruct (Generic.crawl findall (Ok listing)) as [corpus|e] eqn:Hcrawl;
    [|exact I].
  assert (Hread : forall file, In file listing ->
            endswith (fst file) ".html" = true ->
            exists contents, snd file = Ok contents).
  { revert Hcrawl. unfold Generic.crawl. cbn [bind].
    match goal with
    | |- bind ?m _ = _ -> _ => destruct m as [pages|e] eqn:Hfirst;
                                [|discriminate]
    end.
    intros _. revert Hfirst. generalize (@nil (string * list string)).
    clear. induction listing as [|[name text] listing IH];
      intros pages0 Hrun file Hin Hhtml; [destruct Hin|].
    simpl in Hrun. destruct Hin as [<-|Hin]; simpl in *.
    - rewrite Hhtml in Hrun. simpl in Hrun.
      destruct text as [contents|e]; [eauto | discriminate].
    - destruct (endswith name ".html"); simpl in Hrun; [|eauto].
      destruct text as [contents|e]; simpl in Hrun; [eauto | discriminate]. }
  apply crawl_reads in Hcrawl.
  assert (Hnd : NoDup (map fst (read_texts listing)))
    by now rewrite read_texts_names.
  destruct (crawl_graph findall (read_texts listing) Hnd)
    as (corpus' & Hcrawl' & Hkeys & Hwf & _).
  rewrite Hcrawl in Hcrawl'. inversion Hcrawl'; subst corpus'. clear Hcrawl'.
  rewrite read_texts_names in Hkeys.
  pose proof (wf_corpus_keys _ Hwf) as Hndk.
  destruct (Generic.sample_pagerank A R corpus (damping_value A) SAMPLES g)
    as [ranks|e] eqn:Hs; [|exact I].
  pose proof (sample_pagerank_keys R corpus _ _ g ranks Hndk Hs) as Hranks.
  destruct (print_ranks_lines ranks (sorted (keys ranks))
              [Generic.SamplingTitle A SAMPLES])
    as (sampled & Hprint & Hpages).
  { intros x Hx. now apply (Permutation_in _ (sorted_perm (keys ranks))). }
  rewrite Hprint.
  destruct (Generic.iterate_pagerank A fuel corpus (damping_value A))
    as [[ranks'|e]|] eqn:Hi; try exact I.
  pose proof (iterate_pagerank_keys fuel corpus _ ranks' Hndk Hi) as Hranks'.
  destruct (print_ranks_lines ranks' (sorted (keys ranks'))
              (([Generic.SamplingTitle A SAMPLES] ++ sampled)
               ++ [Generic.IterationTitle A]))
    as (iterated & Hprint' & Hpages').
  { intros x Hx. now apply (Permutation_in _ (sorted_perm (keys ranks'))). }
  rewrite Hprint'.
  exists listing, (sorted (keys corpus)), sampled, iterated.
  split; [exact Hargv|]. split; [reflexivity|]. split; [exact Hread|].
  split; [rewrite <- Hkeys; apply sorted_perm|].
  split; [apply sorted_Sorted|].
  split; [simpl; now rewrite <- !app_assoc|].
  split; [now rewrite Hpages, Hranks | now rewrite Hpages', Hranks'].
Qed.
End ProgramProperties.

Lemma main_output_witness :
  match Generic.main binary64 (fun contents => [contents])
          (fun _ => Ok [("2.html", Ok "1.html"); ("notes", Raise OSError);
                        ("1.html", Ok "2.html")]%string)
          (round_robin binary64) ["pagerank.py"; "corpus"]%string 0%nat 10 with
  | Some (out, Finished) =>
      exists listing pages sampled iterated,
        List.length ["pagerank.py"; "corpus"]%string = 2%nat /\
        Ok [("2.html", Ok "1.html"); ("notes", Raise OSError);
            ("1.html", Ok "2.html")]%string = Ok listing /\
        (forall file, In file listing -> endswith (fst file) ".html" = true ->
                      exists contents, snd file = Ok contents) /\
        Permutation pages
          (filter (fun name => endswith name ".html") (map fst listing)) /\
        Sorted (fun a b => String.leb a b = true) pages /\
        out = Generic.SamplingTitle binary64 SAMPLES :: sampled
              ++ Generic.IterationTitle binary64 :: iterated /\
        map page_of sampled = map Some pages /\
        map page_of iterated = map Some pages
  | _ => True
  end.
Proof.
  apply (main_output binary64 (fun contents => [contents])
           (fun _ => Ok [("2.html", Ok "1.html"); ("notes", Raise OSError);
                         ("1.html", Ok "2.html")]%string)
           (round_robin binary64) ["pagerank.py"; "corpus"]%string 0%nat 10).
  intros listing Hl. inversion Hl. apply nodupb_NoDup. reflexivity.
Defined.
